(** * How-I-AI catalog: filtering, grouping, sampling and facet derivation

    A shallow embedding of the catalog logic of the Next.js application:
    - [app/src/lib/types.ts]               (the record types),
    - [app/src/lib/data.ts]                (loading, facet value lists, the
                                            use-case list filter),
    - [app/src/components/HomeClient.tsx]  (the home-page filter, picks,
                                            category grouping, the visible
                                            window and the random draw),
    - [app/src/components/TagFilter.tsx]   (the tag selection),
    - [app/src/app/use-cases/page.tsx], [app/src/app/episodes/[id]/page.tsx]
                                           (the lists and parameters the
                                            pages derive),
    - the statistics panel [Stats].

    JavaScript strings are modelled by [string]; [toLowerCase] and [trim]
    are the ASCII restrictions of the JavaScript methods.  Arrays are
    lists.  A plain object used as a dictionary is an association list kept
    in the order in which [Object.entries] enumerates own properties, and a
    property read falls back on [Object.prototype].  A call either
    completes normally or throws.  The number drawn by [Math.random] is a
    rational; a file is given by what [JSON.parse] makes of its text. *)

From Stdlib Require Import String Ascii List Bool Arith Lia NArith ZArith.
From Stdlib Require Import QArith Qround Permutation Sorted.
Import ListNotations.

Local Close Scope Q_scope.
Local Open Scope string_scope.
Local Open Scope list_scope.

(* ================================================================== *)
(** ** The fragment of JavaScript the components rely on *)
(* ================================================================== *)

Module Js.

(** Abrupt and normal completion of a call. *)
Inductive error : Type :=
| TypeError
| SyntaxError.

Inductive completion (A : Type) : Type :=
| Normal (a : A)
| Throw (e : error).
Arguments Normal {A} a.
Arguments Throw {A} e.

Definition bind {A B : Type} (c : completion A) (k : A -> completion B)
  : completion B :=
  match c with
  | Normal a => k a
  | Throw e => Throw e
  end.

(** Truthiness of a string value: only the empty string is falsy. *)
Definition truthy (s : string) : bool :=
  match s with
  | EmptyString => false
  | String _ _ => true
  end.

(** [String.prototype.toLowerCase], on the ASCII range. *)
Definition lower_ascii (c : ascii) : ascii :=
  let n := nat_of_ascii c in
  if (65 <=? n)%nat && (n <=? 90)%nat then ascii_of_nat (n + 32) else c.

Fixpoint toLowerCase (s : string) : string :=
  match s with
  | EmptyString => EmptyString
  | String c s' => String (lower_ascii c) (toLowerCase s')
  end.

(** [s.startsWith(q)]. *)
Fixpoint startsWith (s q : string) : bool :=
  match q, s with
  | EmptyString, _ => true
  | String _ _, EmptyString => false
  | String b q', String a s' => Ascii.eqb a b && startsWith s' q'
  end.

(** [s.includes(q)]: does [q] occur in [s] at some position. *)
Fixpoint includes (s q : string) : bool :=
  if startsWith s q then true
  else match s with
       | EmptyString => false
       | String _ s' => includes s' q
       end.

(** [String.prototype.trim], on the ASCII range (TAB, LF, VT, FF, CR and
    the space are the white space and line terminator characters). *)
Definition is_space (c : ascii) : bool :=
  let n := nat_of_ascii c in
  ((9 <=? n)%nat && (n <=? 13)%nat) || (n =? 32)%nat.

Fixpoint trimStart (s : string) : string :=
  match s with
  | EmptyString => EmptyString
  | String c s' => if is_space c then trimStart s' else s
  end.

Fixpoint trimEnd (s : string) : string :=
  match s with
  | EmptyString => EmptyString
  | String c s' =>
      match trimEnd s' with
      | EmptyString => if is_space c then EmptyString
                       else String c EmptyString
      | t => String c t
      end
  end.

Definition trim (s : string) : string := trimEnd (trimStart s).

(** [arr.filter(Boolean)] on an array of [string | null] values. *)
Fixpoint filter_Boolean (l : list (option string)) : list string :=
  match l with
  | [] => []
  | Some s :: l' => if truthy s then s :: filter_Boolean l'
                    else filter_Boolean l'
  | None :: l' => filter_Boolean l'
  end.

(** [arr.join(sep)] on an array of strings. *)
Fixpoint join (sep : string) (l : list string) : string :=
  match l with
  | [] => EmptyString
  | [x] => x
  | x :: l' => x ++ sep ++ join sep l'
  end.

(** [arr.includes(x)] on an array of strings. *)
Definition arr_includes (l : list string) (x : string) : bool :=
  existsb (String.eqb x) l.

(** [arr.slice(0, stop)] for a non-negative integer [stop]. *)
Definition slice0 {A : Type} (stop : nat) (l : list A) : list A :=
  firstn (Nat.min stop (length l)) l.

(** [Array.prototype.sort(cmp)].  The sort is stable, so for a consistent
    comparator its result is determined; it is computed here by insertion
    from the right: the element inserted precedes, in the original array,
    every element already placed, and so goes in front of the first one
    it does not compare greater than. *)
Fixpoint sort_insert {A : Type} (cmp : A -> A -> Z) (x : A) (l : list A)
  : list A :=
  match l with
  | [] => [x]
  | y :: l' => if (cmp x y <=? 0)%Z then x :: y :: l'
               else y :: sort_insert cmp x l'
  end.

Fixpoint sort {A : Type} (cmp : A -> A -> Z) (l : list A) : list A :=
  match l with
  | [] => []
  | x :: l' => sort_insert cmp x (sort cmp l')
  end.

(** The comparator of [sort()] without argument on strings: code-unit
    order. *)
Definition default_compare (a b : string) : Z :=
  match String.compare a b with
  | Lt => (-1)%Z
  | Eq => 0%Z
  | Gt => 1%Z
  end.

(** A [Set<string>]: distinct values in insertion order. *)
Definition set_add (s : list string) (x : string) : list string :=
  if arr_includes s x then s else s ++ [x].

(** *** Plain objects used as dictionaries

    Own properties are kept in the order of [OrdinaryOwnPropertyKeys],
    which is the order of [Object.entries]: array-index keys first, in
    ascending numeric order, then the other string keys in the order of
    their creation. *)
Definition object (V : Type) : Type := list (string * V).

Definition digit_of (c : ascii) : option N :=
  let n := N_of_ascii c in
  if (48 <=? n)%N && (n <=? 57)%N then Some (n - 48)%N else None.

Fixpoint parse_digits (acc : N) (s : string) : option N :=
  match s with
  | EmptyString => Some acc
  | String c s' =>
      match digit_of c with
      | Some d => parse_digits (acc * 10 + d)%N s'
      | None => None
      end
  end.

(** A key is an array index when it is the canonical decimal form of an
    integer below 2^32 - 1. *)
Definition array_index (k : string) : option N :=
  match k with
  | EmptyString => None
  | String c s' =>
      if Ascii.eqb c "0"%char
      then match s' with
           | EmptyString => Some 0%N
           | String _ _ => None
           end
      else match parse_digits 0 k with
           | Some n => if (n <? 4294967295)%N then Some n else None
           | None => None
           end
  end.

(** The properties every plain object inherits from [Object.prototype];
    each of them holds a function, or, for [__proto__], the prototype
    object itself: a truthy value that has no [push] method. *)
Definition Object_prototype_names : list string :=
  [ "constructor"; "__defineGetter__"; "__defineSetter__";
    "hasOwnProperty"; "__lookupGetter__"; "__lookupSetter__";
    "isPrototypeOf"; "propertyIsEnumerable"; "toString"; "valueOf";
    "__proto__"; "toLocaleString" ].

Fixpoint get_own {V : Type} (o : object V) (k : string) : option V :=
  match o with
  | [] => None
  | (k', v) :: o' => if String.eqb k k' then Some v else get_own o' k
  end.

(** The outcome of reading [o[k]] on an object literal. *)
Inductive property (V : Type) : Type :=
| Own (v : V)
| Inherited
| Undefined.
Arguments Own {V} v.
Arguments Inherited {V}.
Arguments Undefined {V}.

Definition get {V : Type} (o : object V) (k : string) : property V :=
  match get_own o k with
  | Some v => Own v
  | None => if arr_includes Object_prototype_names k then Inherited
            else Undefined
  end.

(** Creation of a new own property. *)
Fixpoint define_own {V : Type} (k : string) (v : V) (o : object V)
  : object V :=
  match o with
  | [] => [(k, v)]
  | (k', v') :: o' =>
      match array_index k, array_index k' with
      | Some n, Some n' =>
          if (n <? n')%N then (k, v) :: o
          else (k', v') :: define_own k v o'
      | Some _, None => (k, v) :: o
      | None, _ => (k', v') :: define_own k v o'
      end
  end.

(** Replacement of the value of an existing own property. *)
Fixpoint update_own {V : Type} (k : string) (v : V) (o : object V)
  : object V :=
  match o with
  | [] => []
  | (k', v') :: o' =>
      if String.eqb k k' then (k', v) :: o'
      else (k', v') :: update_own k v o'
  end.

Definition entries {V : Type} (o : object V) : list (string * V) := o.

(** Truthiness of a [string | null] value. *)
Definition truthy_opt (v : option string) : bool :=
  match v with
  | Some s => truthy s
  | None => false
  end.






(** [set.delete(x)] on a [Set<string>]. *)
Definition set_delete (s : list string) (x : string) : list string :=
  filter (fun y => negb (String.eqb y x)) s.

(** *** Counting in a dictionary

    The values a [Record<string, number>] takes under the statement
    [counts[t] = (counts[t] || 0) + 1]: a number, or, once an inherited
    value has been read, the string that [+ 1] makes of it. *)
Inductive count : Type :=
| Num (n : nat)
| NaS.

(** [counts[t] = (counts[t] || 0) + 1].  An absent count reads as
    [undefined] and becomes 1; a number is incremented; an inherited value
    is truthy and [+ 1] turns it into a string, which the assignment stores
    as an own property, except under the name [__proto__], whose setter
    ignores a string. *)
Definition increment (counts : object count) (t : string) : object count :=
  match get counts t with
  | Own (Num n) => update_own t (Num (n + 1)) counts
  | Own NaS => update_own t NaS counts
  | Undefined => define_own t (Num 1) counts
  | Inherited =>
      if String.eqb t "__proto__" then counts else define_own t NaS counts
  end.

(** The result of a computation whose order the language leaves to the
    implementation in some cases. *)
Inductive outcome (A : Type) : Type :=
| Defined (a : A)
| Unmodelled.
Arguments Defined {A} a.
Arguments Unmodelled {A}.

Definition is_number (c : count) : bool :=
  match c with
  | Num _ => true
  | NaS => false
  end.

Definition number_of (c : count) : nat :=
  match c with
  | Num n => n
  | NaS => 0
  end.

(** [Object.entries(counts).sort((a, b) => b[1] - a[1])].  On numbers the
    comparator is consistent and the stable sort is determined; a string
    among the values makes the difference [NaN], and the order is then not
    modelled. *)
Definition entries_by_count (counts : object count)
  : outcome (list (string * count)) :=
  if forallb (fun kv => is_number (snd kv)) (entries counts)
  then Defined
         (sort (fun a b =>
                  (Z.of_nat (number_of (snd b))
                   - Z.of_nat (number_of (snd a)))%Z)
               (entries counts))
  else Unmodelled.

Definition outcome_map {A B : Type} (f : A -> B) (o : outcome A)
  : outcome B :=
  match o with
  | Defined a => Defined (f a)
  | Unmodelled => Unmodelled
  end.

(** *** JSON documents *)
#[warnings="-register-all"]
Inductive json : Type :=
| JNull
| JBool (b : bool)
| JNumber (q : Q)
| JString (s : string)
| JArray (l : list json)
| JObject (fields : list (string * json)).

End Js.

Import Js.

(* ================================================================== *)
(** ** [lib/types.ts] *)
(* ================================================================== *)

Record UseCase : Type := mkUseCase {
  uc_title : string;
  uc_one_liner : option string;
  uc_description : string;
  uc_tools : list string;
  uc_category : string;
  uc_audience : string;
  uc_difficulty : string;
  uc_timestamp_seconds : option Q;
  uc_intents : option (list string);
  uc_is_pick : option bool;
  uc_pick_reason : option string
}.

Record EpisodeAnalysis : Type := mkEpisodeAnalysis {
  guest_name_of : option string;
  guest_role_of : option string;
  summary : option string;
  key_takeaways : list string;
  use_cases : list UseCase;
  tools_mentioned : list string;
  notable_quotes : list string
}.

Record Episode : Type := mkEpisode {
  id : string;
  ep_title : string;
  ep_description : string;
  ep_publish_date : string;
  duration_seconds : Q;
  thumbnail_url : string;
  url : string;
  transcript : option string;
  analysis : option EpisodeAnalysis
}.

Record UseCaseFlat : Type := mkUseCaseFlat {
  title : string;
  one_liner : option string;
  description : string;
  tools : list string;
  category : string;
  audience : string;
  difficulty : string;
  timestamp_seconds : option Q;
  intents : list string;
  is_pick : bool;
  pick_reason : option string;
  episode_id : string;
  episode_title : string;
  episode_url : option string;
  guest_name : option string;
  guest_role : option string;
  publish_date : string
}.

(* ================================================================== *)
(** ** [components/HomeClient.tsx] *)
(* ================================================================== *)

Module HomeClient.

Definition CARDS_PER_CATEGORY : nat := 6.
Definition PICKS_INITIAL : nat := 6.

(** [picks]: all picks of the catalog. *)
Definition picks (useCases : list UseCaseFlat) : list UseCaseFlat :=
  filter (fun uc => is_pick uc) useCases.

(** The text assembled for one record by the search branch. *)
Definition searchable (uc : UseCaseFlat) : string :=
  toLowerCase
    (join " "
       (filter_Boolean
          ([ Some (title uc); one_liner uc; Some (description uc);
             guest_name uc; Some (episode_title uc) ]
             ++ map Some (tools uc)
             ++ [ Some (category uc) ]))).

(** The callback of [useCases.filter] in [filtered]; [q] is
    [search.toLowerCase()].  On a [UseCaseFlat] as declared, [intents] and
    [tools] are arrays: [uc.intents?.includes] reads the array and
    [uc.tools || []] is [uc.tools]. *)
Definition keep (q : string) (selectedRole selectedIntent : option string)
  (uc : UseCaseFlat) : bool :=
  if match selectedRole with
     | Some role =>
         truthy role
         && (negb (String.eqb (audience uc) role)
             && negb (String.eqb (audience uc) "everyone"))
     | None => false
     end
  then false
  else
    if match selectedIntent with
       | Some intent => truthy intent && negb (arr_includes (intents uc) intent)
       | None => false
       end
    then false
    else
      if truthy q && negb (includes (searchable uc) q)
      then false
      else true.

Definition filtered (useCases : list UseCaseFlat) (search : string)
  (selectedRole selectedIntent : option string) : list UseCaseFlat :=
  let q := toLowerCase search in
  filter (keep q selectedRole selectedIntent) useCases.

(** [filteredPicks], computed from [filtered]. *)
Definition filteredPicks (filtered : list UseCaseFlat) : list UseCaseFlat :=
  filter (fun uc => is_pick uc) filtered.

(** [uc.category || "other"]. *)
Definition cat_key (uc : UseCaseFlat) : string :=
  if truthy (category uc) then category uc else "other".

(** One iteration of the loop of [grouped]:
    [if (!groups[cat]) groups[cat] = []; groups[cat].push(uc);].
    An own value is an array, hence truthy; an inherited value is truthy
    too and is not replaced; calling a [push] that the value read does not
    have is a [TypeError]. *)
Definition group_step (groups : object (list UseCaseFlat)) (uc : UseCaseFlat)
  : completion (object (list UseCaseFlat)) :=
  let cat := cat_key uc in
  let groups1 :=
    match get groups cat with
    | Undefined => define_own cat [] groups
    | Own _ | Inherited => groups
    end in
  match get groups1 cat with
  | Own arr => Normal (update_own cat (arr ++ [uc]) groups1)
  | Inherited | Undefined => Throw TypeError
  end.

Fixpoint group_loop (groups : object (list UseCaseFlat))
  (l : list UseCaseFlat) : completion (object (list UseCaseFlat)) :=
  match l with
  | [] => Normal groups
  | uc :: l' => bind (group_step groups uc) (fun g => group_loop g l')
  end.

(** The comparator [(a, b) => b[1].length - a[1].length]. *)
Definition by_count (a b : string * list UseCaseFlat) : Z :=
  (Z.of_nat (length (snd b)) - Z.of_nat (length (snd a)))%Z.

Definition grouped (filtered : list UseCaseFlat)
  : completion (list (string * list UseCaseFlat)) :=
  bind (group_loop [] filtered)
       (fun groups => Normal (sort by_count (entries groups))).

(** [visible], the window of one category section. *)
Definition visible (isExpanded : bool) (categoryUseCases : list UseCaseFlat)
  : list UseCaseFlat :=
  let visibleCount :=
    if isExpanded then length categoryUseCases else CARDS_PER_CATEGORY in
  slice0 visibleCount categoryUseCases.

(** [handleSurpriseMe]: the value handed to [setSurpriseUseCase]; [None]
    is [undefined].  [random] is the number returned by [Math.random()],
    a number in the interval from 0 (included) to 1 (excluded); the
    product with the length is taken exactly (the rounded product of a
    double below 1 with an array length stays below that length). *)
Definition handleSurpriseMe (random : Q)
  (filtered useCases : list UseCaseFlat) : completion (option UseCaseFlat) :=
  let pool := if (0 <? length filtered)%nat then filtered else useCases in
  let i := Qfloor (random * inject_Z (Z.of_nat (length pool))) in
  Normal (nth_error pool (Z.to_nat i)).

(** [hasActiveFilters]. *)
Definition hasActiveFilters (search : string)
  (selectedRole selectedIntent : option string) : bool :=
  truthy_opt selectedRole || truthy_opt selectedIntent || truthy search.

(** The test of the status line, [filtered.length === useCases.length]. *)
Definition showingAll (filtered useCases : list UseCaseFlat) : bool :=
  (length filtered =? length useCases)%nat.

(** [totalCategories]. *)
Definition totalCategories (useCases : list UseCaseFlat) : nat :=
  length (fold_left set_add (map category useCases) []).

(** [toggleCategory]: the next value of [expandedCategories]. *)
Definition toggleCategory (prev : list string) (cat : string)
  : list string :=
  let next := prev in
  if arr_includes next cat then set_delete next cat else set_add next cat.

(** [isExpanded] and [hasMore] of a category section. *)
Definition isExpanded (expandedCategories : list string) (category : string)
  : bool :=
  arr_includes expandedCategories category.

Definition hasMore (categoryUseCases : list UseCaseFlat) : bool :=
  (CARDS_PER_CATEGORY <? length categoryUseCases)%nat.

(** The picks rendered, and the test that offers their toggle. *)
Definition visiblePicks (showAllPicks : bool)
  (filteredPicks : list UseCaseFlat) : list UseCaseFlat :=
  if showAllPicks then filteredPicks else slice0 PICKS_INITIAL filteredPicks.

Definition hasMorePicks (filteredPicks : list UseCaseFlat) : bool :=
  (PICKS_INITIAL <? length filteredPicks)%nat.

(** The roles handed to the role picker. *)
Definition roles (allAudiences : list string) : list string :=
  filter (fun a => negb (String.eqb a "everyone")) allAudiences.






End HomeClient.

(* ================================================================== *)
(** ** [lib/data.ts] *)
(* ================================================================== *)

Module UseCasesClient.

Definition searchable (uc : UseCaseFlat) : string :=
  toLowerCase
    (join " "
       (filter_Boolean
          ([ Some (title uc); Some (description uc); guest_name uc;
             Some (episode_title uc) ]
             ++ map Some (tools uc)))).

Definition keep (q : string) (selectedRole : option string)
  (selectedCategories selectedDifficulties : list string)
  (uc : UseCaseFlat) : bool :=
  if truthy q && negb (includes (searchable uc) q) then false
  else
    if (0 <? length selectedCategories)%nat
       && negb (arr_includes selectedCategories (category uc))
    then false
    else
      if (0 <? length selectedDifficulties)%nat
         && negb (arr_includes selectedDifficulties (difficulty uc))
      then false
      else
        if match selectedRole with
           | Some role =>
               truthy role
               && (negb (String.eqb (audience uc) role)
                   && negb (String.eqb (audience uc) "everyone"))
           | None => false
           end
        then false
        else true.

Definition filtered (useCases : list UseCaseFlat) (search : string)
  (selectedRole : option string)
  (selectedCategories selectedDifficulties : list string)
  : list UseCaseFlat :=
  let q := toLowerCase search in
  filter (keep q selectedRole selectedCategories selectedDifficulties)
         useCases.

End UseCasesClient.

Module CatalogClient.

(** [ep.analysis?.f] for a nullable string field [f]. *)
Definition analysis_string (f : EpisodeAnalysis -> option string)
  (ep : Episode) : option string :=
  match analysis ep with
  | Some a => f a
  | None => None
  end.

(** [ep.analysis?.f || []] for an array field [f]. *)
Definition analysis_list {A : Type} (f : EpisodeAnalysis -> list A)
  (ep : Episode) : list A :=
  match analysis ep with
  | Some a => f a
  | None => []
  end.

Definition searchable (ep : Episode) : string :=
  toLowerCase
    (join " "
       (filter_Boolean
          ([ Some (ep_title ep); analysis_string guest_name_of ep;
             analysis_string guest_role_of ep; analysis_string summary ep ]
             ++ map Some (analysis_list tools_mentioned ep)
             ++ map Some (map uc_title (analysis_list use_cases ep))))).

Definition keep (q : string) (selectedRole : option string)
  (selectedTools selectedCategories : list string) (ep : Episode) : bool :=
  if truthy q && negb (includes (searchable ep) q) then false
  else
    if match selectedRole with
       | Some role =>
           let epAudiences := map uc_audience (analysis_list use_cases ep) in
           truthy role
           && (negb (arr_includes epAudiences role)
               && negb (arr_includes epAudiences "everyone"))
       | None => false
       end
    then false
    else
      if (0 <? length selectedTools)%nat
         && negb (let epTools := analysis_list tools_mentioned ep in
                  existsb (fun t => arr_includes epTools t) selectedTools)
      then false
      else
        if (0 <? length selectedCategories)%nat
           && negb (let epCategories :=
                      map uc_category (analysis_list use_cases ep) in
                    existsb (fun c => arr_includes epCategories c)
                            selectedCategories)
        then false
        else true.

Definition filtered (episodes : list Episode) (search : string)
  (selectedRole : option string)
  (selectedTools selectedCategories : list string) : list Episode :=
  let q := toLowerCase search in
  filter (keep q selectedRole selectedTools selectedCategories) episodes.

(** [topTools]: the tools offered by the tool filter. *)
Definition toolCounts (episodes : list Episode) : object count :=
  fold_left
    (fun counts ep =>
       fold_left increment (analysis_list tools_mentioned ep) counts)
    episodes [].

Definition topTools (episodes : list Episode) : outcome (list string) :=
  outcome_map (fun sorted => map fst (slice0 15 sorted))
              (entries_by_count (toolCounts episodes)).

End CatalogClient.

Module Data.

(** The data directory as the loaders see it: for each of the three files,
    [None] when [fs.existsSync] answers false, and otherwise what
    [JSON.parse] makes of the text read. *)
Inductive document : Type :=
| Parses (v : json)
| Unparseable.

Record data_dir : Type := mkDataDir {
  episodes_analyzed_json : option document;
  episodes_json : option document;
  use_cases_json : option document
}.

Definition JSON_parse (d : document) : completion json :=
  match d with
  | Parses v => Normal v
  | Unparseable => Throw SyntaxError
  end.

Definition getEpisodes (dir : data_dir) : completion json :=
  match episodes_analyzed_json dir with
  | None =>
      match episodes_json dir with
      | None => Normal (JArray [])
      | Some raw => JSON_parse raw
      end
  | Some raw => JSON_parse raw
  end.


(** [e.id] on an element of the parsed array: reading a property of
    [null] throws; an object yields its own field, if any; any other value
    has no such property. *)
Definition read_id (e : json) : completion (option json) :=
  match e with
  | JNull => Throw TypeError
  | JObject fields => Normal (get_own fields "id")
  | _ => Normal None
  end.

(** [episodes.find((e) => e.id === id)]. *)
Fixpoint find_by_id (l : list json) (id : string)
  : completion (option json) :=
  match l with
  | [] => Normal None
  | e :: l' =>
      bind (read_id e)
           (fun v =>
              match v with
              | Some (JString s) =>
                  if String.eqb s id then Normal (Some e)
                  else find_by_id l' id
              | _ => find_by_id l' id
              end)
  end.

(** [getEpisode]; [None] is [null].  On a value that is not an array,
    [find] is not a function. *)
Definition getEpisode (dir : data_dir) (id : string)
  : completion (option json) :=
  bind (getEpisodes dir)
       (fun episodes =>
          match episodes with
          | JArray l => find_by_id l id
          | _ => Throw TypeError
          end).

Definition getAllTools (episodes : list Episode) : list string :=
  let tools :=
    fold_left
      (fun tools ep =>
         match analysis ep with
         | Some a => fold_left set_add (tools_mentioned a) tools
         | None => tools
         end)
      episodes [] in
  sort default_compare tools.

Definition getAllCategories (useCases : list UseCaseFlat) : list string :=
  let cats :=
    fold_left
      (fun cats uc =>
         if truthy (category uc) then set_add cats (category uc) else cats)
      useCases [] in
  sort default_compare cats.

Definition getAllAudiences (useCases : list UseCaseFlat) : list string :=
  let audiences :=
    fold_left
      (fun audiences uc =>
         if truthy (audience uc) then set_add audiences (audience uc)
         else audiences)
      useCases [] in
  sort default_compare audiences.

End Data.

(* ================================================================== *)
(** ** [components/TagFilter.tsx] *)
(* ================================================================== *)

Module TagFilter.

(** [toggle]: the selection handed to [onChange]. *)
Definition toggle (selected : list string) (tag : string) : list string :=
  if arr_includes selected tag
  then filter (fun t => negb (String.eqb t tag)) selected
  else selected ++ [tag].

End TagFilter.

(* ================================================================== *)
(** ** The pages: [app/use-cases/page.tsx], [app/episodes/[id]/page.tsx] *)
(* ================================================================== *)

Module UseCasesPage.

Definition allDifficulties (useCases : list UseCaseFlat) : list string :=
  sort default_compare
       (fold_left set_add (filter truthy (map difficulty useCases)) []).

Definition allAudiences (useCases : list UseCaseFlat) : list string :=
  sort default_compare
       (fold_left set_add (filter truthy (map audience useCases)) []).

End UseCasesPage.

Module EpisodePage.

(** [episodes.map((ep) => ({ id: ep.id }))]: the [id] of each parameter
    object, [None] for [undefined]. *)
Fixpoint map_ids (l : list json) : completion (list (option json)) :=
  match l with
  | [] => Normal []
  | ep :: l' =>
      bind (Data.read_id ep)
           (fun v => bind (map_ids l') (fun vs => Normal (v :: vs)))
  end.

Definition generateStaticParams (dir : Data.data_dir)
  : completion (list (option json)) :=
  bind (Data.getEpisodes dir)
       (fun episodes =>
          match episodes with
          | JArray l => map_ids l
          | _ => Throw TypeError
          end).

End EpisodePage.

(* ================================================================== *)
(** ** The statistics panel ([Stats]) *)
(* ================================================================== *)

Module Stats.

Definition toolCounts (episodes : list Episode) : object count :=
  fold_left
    (fun toolCounts ep =>
       match analysis ep with
       | Some a => fold_left increment (tools_mentioned a) toolCounts
       | None => toolCounts
       end)
    episodes [].

Definition topTools (episodes : list Episode)
  : outcome (list (string * count)) :=
  outcome_map (slice0 8) (entries_by_count (toolCounts episodes)).

Definition catCounts (useCases : list UseCaseFlat) : object count :=
  fold_left
    (fun catCounts uc =>
       if truthy (category uc) then increment catCounts (category uc)
       else catCounts)
    useCases [].

Definition topCategories (useCases : list UseCaseFlat)
  : outcome (list (string * count)) :=
  outcome_map (slice0 6) (entries_by_count (catCounts useCases)).

(** The "Tools" number: [Object.keys(toolCounts).length]. *)
Definition toolsShown (episodes : list Episode) : nat :=
  length (map fst (toolCounts episodes)).

End Stats.

(* ================================================================== *)
(** ** Vocabulary of the specification *)
(* ================================================================== *)

(** [q] occurs in [s]. *)
Definition substring_of (q s : string) : Prop :=
  exists pre post : string, s = (pre ++ q ++ post)%string.

(** The role constraint: active when a non-empty role is selected. *)
Definition role_criterion (selectedRole : option string) (uc : UseCaseFlat)
  : Prop :=
  forall role, selectedRole = Some role -> role <> "" ->
    audience uc = role \/ audience uc = "everyone".

(** The intent constraint: active when a non-empty intent is selected. *)
Definition intent_criterion (selectedIntent : option string)
  (uc : UseCaseFlat) : Prop :=
  forall intent, selectedIntent = Some intent -> intent <> "" ->
    In intent (intents uc).

(** The free-text constraint over a search surface: active when the term
    is not empty. *)
Definition text_criterion {A : Type} (surface : A -> string)
  (search : string) (x : A) : Prop :=
  search <> "" -> substring_of (toLowerCase search) (surface x).

(** A multi-value facet on a single-valued attribute: active when the
    selection is not empty, satisfied when some selected value is the
    record's. *)
Definition facet_criterion (selected : list string) (value : string) : Prop :=
  selected <> [] -> exists v, In v selected /\ v = value.

(** A multi-value facet on a collection-valued attribute: satisfied when
    some selected value is in the collection. *)
Definition collection_criterion (selected values : list string) : Prop :=
  selected <> [] -> exists v, In v selected /\ In v values.

(** The role constraint on a container: some nested use case is for the
    selected role or for everyone. *)
Definition container_role_criterion (selectedRole : option string)
  (ep : Episode) : Prop :=
  forall role, selectedRole = Some role -> role <> "" ->
    exists uc, In uc (CatalogClient.analysis_list use_cases ep)
               /\ (uc_audience uc = role \/ uc_audience uc = "everyone").

(** The free-text constraint as the specification words it, with the term
    trimmed. *)
Definition spec_text_criterion (search : string) (uc : UseCaseFlat) : Prop :=
  substring_of (toLowerCase (trim search)) (HomeClient.searchable uc).

(** A record "passes the free-text criterion" of the home page when the
    filter callback keeps it with no role and no intent selected. *)
Definition passes_text (search : string) (uc : UseCaseFlat) : bool :=
  HomeClient.keep (toLowerCase search) None None uc.





(** The key is the name of a property inherited from [Object.prototype]. *)
Definition inherited (k : string) : bool :=
  arr_includes Object_prototype_names k.

(** Position of the first occurrence of [k] in [l] ([length l] if none). *)
Fixpoint index_of (k : string) (l : list string) : nat :=
  match l with
  | [] => 0
  | x :: l' => if String.eqb k x then 0 else S (index_of k l')
  end.

(** The order of own keys of the object built from records whose category
    keys are [keys], in canonical order: array-index keys first, by
    ascending number, then the other keys by first occurrence. *)
Definition key_precedes (keys : list string) (k1 k2 : string) : Prop :=
  match array_index k1, array_index k2 with
  | Some n1, Some n2 => (n1 < n2)%N
  | Some _, None => True
  | None, Some _ => False
  | None, None => index_of k1 keys < index_of k2 keys
  end.

(** The order of groups as the specification words it: by descending
    member count, ties by first occurrence of the group's key among the
    records. *)
Definition spec_group_order (records : list UseCaseFlat)
  (groups : list (string * list UseCaseFlat)) : Prop :=
  StronglySorted
    (fun a b =>
       length (snd b) < length (snd a)
       \/ (length (snd a) = length (snd b)
           /\ index_of (fst a) (map HomeClient.cat_key records)
              < index_of (fst b) (map HomeClient.cat_key records)))
    groups.

(** The order of groups over the own-key order of the object. *)
Definition entries_group_order (records : list UseCaseFlat)
  (groups : list (string * list UseCaseFlat)) : Prop :=
  StronglySorted
    (fun a b =>
       length (snd b) < length (snd a)
       \/ (length (snd a) = length (snd b)
           /\ key_precedes (map HomeClient.cat_key records)
                 (fst a) (fst b)))
    groups.

(** The members of the group keyed [k]. *)
Definition members (k : string) (records : list UseCaseFlat)
  : list UseCaseFlat :=
  filter (fun r => String.eqb (HomeClient.cat_key r) k) records.

(** What holds of the object [groups] once the loop of [grouped] has
    consumed the records [p]. *)
Definition group_inv (p : list UseCaseFlat) (o : object (list UseCaseFlat))
  : Prop :=
  NoDup (map fst o)
  /\ (forall k v, In (k, v) o ->
        v = members k p /\ In k (map HomeClient.cat_key p))
  /\ (forall r, In r p -> In (HomeClient.cat_key r) (map fst o))
  /\ Permutation (concat (map snd o)) p
  /\ StronglySorted (key_precedes (map HomeClient.cat_key p)) (map fst o).

(** Descending order of size, as a comparator, and the order it yields on
    a stable sort of a list that is in the order [before]. *)
Definition by_size {A : Type} (size : A -> nat) (a b : A) : Z :=
  (Z.of_nat (size b) - Z.of_nat (size a))%Z.

Definition size_then_before {A : Type} (size : A -> nat)
  (before : A -> A -> Prop) (a b : A) : Prop :=
  size b < size a \/ (size a = size b /\ before a b).

(* ================================================================== *)
(** ** Concrete data used in examples *)
(* ================================================================== *)

(** A record with the given title, category, audience and pick flag, and
    nothing else filled in. *)
Definition record_of (t cat aud : string) (pick : bool) : UseCaseFlat :=
  mkUseCaseFlat t None "" [] cat aud "" None [] pick None
                "" "" None None None "".

Definition r_everyone : UseCaseFlat := record_of "a" "coding" "everyone" true.
Definition r_designer : UseCaseFlat := record_of "b" "coding" "designer" false.
Definition r_writer : UseCaseFlat := record_of "c" "writing" "writer" false.
Definition r_x : UseCaseFlat := record_of "x" "" "" false.

Definition ep_blank_tool : Episode :=
  mkEpisode "e1" "t" "" "20250101" 0%Q "" "" None
    (Some (mkEpisodeAnalysis None None None [] [] [""; "cursor"] [])).



Definition r_one : UseCaseFlat := record_of "d" "1" "designer" false.
Definition r_constructor : UseCaseFlat :=
  record_of "e" "constructor" "everyone" false.

(* ================================================================== *)
(** ** Vocabulary for the other functions *)
(* ================================================================== *)

(** Every mention of a tool by the episodes, in canonical order. *)
Definition mentions (episodes : list Episode) : list string :=
  flat_map (CatalogClient.analysis_list tools_mentioned) episodes.

(** Number of occurrences of [k] in [l]. *)
Definition occurrences (k : string) (l : list string) : nat :=
  count_occ string_dec l k.

(** Ascending code-unit order, strict. *)
Definition ascending (l : list string) : Prop :=
  StronglySorted (fun a b => String.ltb a b = true) l.

(** What holds of the object [counts] once the keys [ks] have been
    counted. *)
Definition count_inv (ks : list string) (o : object count) : Prop :=
  NoDup (map fst o)
  /\ (forall k v, In (k, v) o -> v = Num (occurrences k ks) /\ In k ks)
  /\ (forall k, In k ks -> In k (map fst o)).

(** An episode that mentions the tools [ts]. *)
Definition ep_with_tools (i : string) (ts : list string) : Episode :=
  mkEpisode i "t" "" "20250101" 0%Q "" "" None
    (Some (mkEpisodeAnalysis None None None [] [] ts [])).

Definition raw_two_episodes : json :=
  JArray [ JObject [ ("id", JString "e1"); ("title", JString "one") ];
           JObject [ ("id", JString "e2"); ("title", JString "two") ] ].

Definition dir_two_episodes : Data.data_dir :=
  Data.mkDataDir (Some (Data.Parses raw_two_episodes)) None None.

(* ================================================================== *)
(** ** Strings and arrays *)
(* ================================================================== *)

Lemma truthy_true_iff (s : string) : truthy s = true <-> s <> "".
Proof.
  destruct s; simpl; split; intro H; congruence.
Qed.

Lemma truthy_false_iff (s : string) : truthy s = false <-> s = "".
Proof.
  destruct s; simpl; split; intro H; congruence.
Qed.

Lemma toLowerCase_empty_iff (s : string) : toLowerCase s = "" <-> s = "".
Proof.
  destruct s; simpl; split; intro H; congruence.
Qed.

Lemma arr_includes_In (l : list string) (x : string) :
  arr_includes l x = true <-> In x l.
Proof.
  unfold arr_includes. rewrite existsb_exists. split.
  - intros (y & Hy & Heq). apply String.eqb_eq in Heq. now subst.
  - intro H. exists x. split; [assumption | apply String.eqb_refl].
Qed.

Lemma arr_includes_false (l : list string) (x : string) :
  arr_includes l x = false <-> ~ In x l.
Proof.
  rewrite <- arr_includes_In. destruct (arr_includes l x); split; intro H;
    congruence.
Qed.

Lemma startsWith_spec (s q : string) :
  startsWith s q = true <-> exists post, s = (q ++ post)%string.
Proof.
  revert s. induction q as [| b q IH]; intro s; simpl.
  - split; [intros _; now exists s | intros _; now destruct s].
  - destruct s as [| a s]; simpl.
    + split; [discriminate | intros (post & H); discriminate].
    + rewrite andb_true_iff, IH, Ascii.eqb_eq. split.
      * intros (-> & post & ->). now exists post.
      * intros (post & H). injection H as -> ->. split; [reflexivity|].
        now exists post.
Qed.

Lemma includes_unfold (s q : string) :
  includes s q =
  if startsWith s q then true
  else match s with
       | EmptyString => false
       | String _ s' => includes s' q
       end.
Proof. destruct s; reflexivity. Qed.

Lemma includes_spec (s q : string) :
  includes s q = true <-> substring_of q s.
Proof.
  unfold substring_of. induction s as [| a s IH];
    rewrite includes_unfold;
    match goal with |- context [startsWith ?x q] =>
      destruct (startsWith x q) eqn:E end.
  - split; [intros _ | reflexivity].
    apply startsWith_spec in E. destruct E as (post & E).
    now exists "", post.
  - split; [discriminate |].
    intros (pre & post & H). destruct pre; simpl in H.
    + assert (startsWith "" q = true) by (apply startsWith_spec; eauto).
      congruence.
    + discriminate.
  - split; [intros _ | reflexivity].
    apply startsWith_spec in E. destruct E as (post & E).
    now exists "", post.
  - rewrite IH. split.
    + intros (pre & post & ->). now exists (String a pre), post.
    + intros (pre & post & H). destruct pre as [| c pre]; simpl in H.
      * assert (startsWith (String a s) q = true)
          by (apply startsWith_spec; eauto).
        congruence.
      * injection H as _ ->. now exists pre, post.
Qed.

Lemma includes_empty (s : string) : includes s "" = true.
Proof. destruct s; reflexivity. Qed.

(* ================================================================== *)
(** ** The filter callbacks, branch by branch *)
(* ================================================================== *)

Lemma role_branch_spec (selectedRole : option string) (uc : UseCaseFlat) :
  match selectedRole with
  | Some role =>
      truthy role
      && (negb (String.eqb (audience uc) role)
          && negb (String.eqb (audience uc) "everyone"))
  | None => false
  end = false
  <-> role_criterion selectedRole uc.
Proof.
  unfold role_criterion. destruct selectedRole as [role |].
  - destruct (truthy role) eqn:Ht; simpl.
    + destruct (String.eqb_spec (audience uc) role) as [E1 | N1]; simpl.
      * split; [intros _ r [= <-] _; now left | reflexivity].
      * destruct (String.eqb_spec (audience uc) "everyone") as [E2 | N2];
          simpl.
        -- split; [intros _ r _ _; now right | reflexivity].
        -- split; [discriminate |].
           intro H. apply truthy_true_iff in Ht.
           destruct (H role eq_refl Ht); contradiction.
    + apply truthy_false_iff in Ht.
      split; [intros _ r [= <-] Hne; contradiction | reflexivity].
  - split; [intros _ r H; discriminate | reflexivity].
Qed.

Lemma intent_branch_spec (selectedIntent : option string) (uc : UseCaseFlat) :
  match selectedIntent with
  | Some intent => truthy intent && negb (arr_includes (intents uc) intent)
  | None => false
  end = false
  <-> intent_criterion selectedIntent uc.
Proof.
  unfold intent_criterion. destruct selectedIntent as [intent |].
  - destruct (truthy intent) eqn:Ht; simpl.
    + destruct (arr_includes (intents uc) intent) eqn:Hi; simpl.
      * apply arr_includes_In in Hi.
        split; [intros _ i [= <-] _; assumption | reflexivity].
      * apply arr_includes_false in Hi. split; [discriminate |].
        intro H. apply truthy_true_iff in Ht.
        elim Hi. now apply H.
    + apply truthy_false_iff in Ht.
      split; [intros _ i [= <-] Hne; contradiction | reflexivity].
  - split; [intros _ i H; discriminate | reflexivity].
Qed.

Lemma text_branch_spec {A : Type} (surface : A -> string) (search : string)
  (uc : A) :
  truthy (toLowerCase search)
  && negb (includes (surface uc) (toLowerCase search)) = false
  <-> text_criterion surface search uc.
Proof.
  unfold text_criterion. destruct (truthy (toLowerCase search)) eqn:Ht; simpl.
  - apply truthy_true_iff in Ht. rewrite toLowerCase_empty_iff in Ht.
    rewrite negb_false_iff, includes_spec. tauto.
  - apply truthy_false_iff in Ht.
    apply (proj1 (toLowerCase_empty_iff _)) in Ht.
    split; [intros _ Hne; now elim Hne | reflexivity].
Qed.

Lemma facet_branch_spec (selected : list string) (value : string) :
  (0 <? length selected)%nat && negb (arr_includes selected value) = false
  <-> facet_criterion selected value.
Proof.
  unfold facet_criterion. destruct selected as [| s selected].
  - simpl. split; [intros _ H; now elim H | reflexivity].
  - change (0 <? length (s :: selected))%nat with true. cbv beta iota.
    rewrite andb_true_l, negb_false_iff, arr_includes_In. split.
    + intros H _. now exists value.
    + intros H. destruct (H ltac:(discriminate)) as (v & Hv & <-).
      assumption.
Qed.

Lemma HomeClient_keep_spec (search : string)
  (selectedRole selectedIntent : option string) (uc : UseCaseFlat) :
  HomeClient.keep (toLowerCase search) selectedRole selectedIntent uc = true
  <-> role_criterion selectedRole uc
      /\ intent_criterion selectedIntent uc
      /\ text_criterion HomeClient.searchable search uc.
Proof.
  rewrite <- role_branch_spec, <- intent_branch_spec,
    <- (text_branch_spec HomeClient.searchable).
  unfold HomeClient.keep.
  repeat match goal with
         | |- context [if ?b then false else _] => destruct b
         end; intuition congruence.
Qed.

Lemma UseCasesClient_keep_spec (search : string)
  (selectedRole : option string)
  (selectedCategories selectedDifficulties : list string)
  (uc : UseCaseFlat) :
  UseCasesClient.keep (toLowerCase search) selectedRole selectedCategories
    selectedDifficulties uc = true
  <-> text_criterion UseCasesClient.searchable search uc
      /\ facet_criterion selectedCategories (category uc)
      /\ facet_criterion selectedDifficulties (difficulty uc)
      /\ role_criterion selectedRole uc.
Proof.
  rewrite <- role_branch_spec, <- 2 facet_branch_spec,
    <- (text_branch_spec UseCasesClient.searchable).
  unfold UseCasesClient.keep.
  repeat match goal with
         | |- context [if ?b then false else _] => destruct b
         end; intuition congruence.
Qed.

Lemma collection_branch_spec (selected values : list string) :
  (0 <? length selected)%nat
  && negb (existsb (fun v => arr_includes values v) selected) = false
  <-> collection_criterion selected values.
Proof.
  unfold collection_criterion. destruct selected as [| s selected].
  - simpl. split; [intros _ H; now elim H | reflexivity].
  - change (0 <? length (s :: selected))%nat with true.
    rewrite andb_true_l, negb_false_iff, existsb_exists.
    setoid_rewrite arr_includes_In. split.
    + intros H _. exact H.
    + intros H. apply H. discriminate.
Qed.

Lemma container_role_branch_spec (selectedRole : option string)
  (ep : Episode) :
  match selectedRole with
  | Some role =>
      let epAudiences :=
        map uc_audience (CatalogClient.analysis_list use_cases ep) in
      truthy role
      && (negb (arr_includes epAudiences role)
          && negb (arr_includes epAudiences "everyone"))
  | None => false
  end = false
  <-> container_role_criterion selectedRole ep.
Proof.
  unfold container_role_criterion. destruct selectedRole as [role |];
    [| split; [intros _ r H; discriminate | reflexivity]].
  cbv zeta.
  set (auds := map uc_audience (CatalogClient.analysis_list use_cases ep)).
  assert (Hmem : forall a, In a auds <->
            exists uc, In uc (CatalogClient.analysis_list use_cases ep)
                       /\ uc_audience uc = a).
  { intro a. unfold auds. rewrite in_map_iff. firstorder. }
  destruct (truthy role) eqn:Ht; simpl.
  - apply truthy_true_iff in Ht.
    destruct (arr_includes auds role) eqn:E1; simpl.
    + apply arr_includes_In, Hmem in E1. destruct E1 as (uc & Huc & Ha).
      split; [| reflexivity]. intros _ r [= <-] _. exists uc. tauto.
    + destruct (arr_includes auds "everyone") eqn:E2; simpl.
      * apply arr_includes_In, Hmem in E2. destruct E2 as (uc & Huc & Ha).
        split; [| reflexivity]. intros _ r _ _. exists uc. tauto.
      * apply arr_includes_false in E1, E2. split; [discriminate |].
        intro H. destruct (H role eq_refl Ht) as (uc & Huc & [Ha | Ha]).
        -- elim E1. apply Hmem. now exists uc.
        -- elim E2. apply Hmem. now exists uc.
  - apply truthy_false_iff in Ht.
    split; [intros _ r [= <-] Hne; contradiction | reflexivity].
Qed.

Lemma CatalogClient_keep_spec (search : string)
  (selectedRole : option string)
  (selectedTools selectedCategories : list string) (ep : Episode) :
  CatalogClient.keep (toLowerCase search) selectedRole selectedTools
    selectedCategories ep = true
  <-> text_criterion CatalogClient.searchable search ep
      /\ container_role_criterion selectedRole ep
      /\ collection_criterion selectedTools
           (CatalogClient.analysis_list tools_mentioned ep)
      /\ collection_criterion selectedCategories
           (map uc_category (CatalogClient.analysis_list use_cases ep)).
Proof.
  rewrite <- container_role_branch_spec, <- 2 collection_branch_spec,
    <- (text_branch_spec CatalogClient.searchable).
  unfold CatalogClient.keep. cbv zeta.
  repeat match goal with
         | |- context [if ?b then false else _] => destruct b
         end; intuition congruence.
Qed.

Lemma CatalogClient_filtered_In (episodes : list Episode) (search : string)
  (selectedRole : option string)
  (selectedTools selectedCategories : list string) (ep : Episode) :
  In ep (CatalogClient.filtered episodes search selectedRole selectedTools
           selectedCategories)
  <-> In ep episodes
      /\ text_criterion CatalogClient.searchable search ep
      /\ container_role_criterion selectedRole ep
      /\ collection_criterion selectedTools
           (CatalogClient.analysis_list tools_mentioned ep)
      /\ collection_criterion selectedCategories
           (map uc_category (CatalogClient.analysis_list use_cases ep)).
Proof.
  unfold CatalogClient.filtered.
  now rewrite filter_In, CatalogClient_keep_spec.
Qed.



Lemma HomeClient_filtered_In (useCases : list UseCaseFlat) (search : string)
  (selectedRole selectedIntent : option string) (uc : UseCaseFlat) :
  In uc (HomeClient.filtered useCases search selectedRole selectedIntent)
  <-> In uc useCases
      /\ role_criterion selectedRole uc
      /\ intent_criterion selectedIntent uc
      /\ text_criterion HomeClient.searchable search uc.
Proof.
  unfold HomeClient.filtered. now rewrite filter_In, HomeClient_keep_spec.
Qed.

Lemma UseCasesClient_filtered_In (useCases : list UseCaseFlat)
  (search : string) (selectedRole : option string)
  (selectedCategories selectedDifficulties : list string)
  (uc : UseCaseFlat) :
  In uc (UseCasesClient.filtered useCases search selectedRole
           selectedCategories selectedDifficulties)
  <-> In uc useCases
      /\ text_criterion UseCasesClient.searchable search uc
      /\ facet_criterion selectedCategories (category uc)
      /\ facet_criterion selectedDifficulties (difficulty uc)
      /\ role_criterion selectedRole uc.
Proof.
  unfold UseCasesClient.filtered.
  now rewrite filter_In, UseCasesClient_keep_spec.
Qed.





(* ================================================================== *)
(** ** Query evaluation *)
(* ================================================================== *)


(** C3.  A record whose audience is ["everyone"] is never rejected by the
    role branch: with the role as only constraint it is in the result for
    every selected role and when no role is selected.  Any other record,
    under a non-empty role selection, is in that result only when its
    audience is the selected role. *)
Theorem role_wildcard
  (useCases : list UseCaseFlat) (uc : UseCaseFlat) (role : string)
  (Hin : In uc useCases) :
  (audience uc = "everyone" ->
     role_criterion (Some role) uc
     /\ In uc (HomeClient.filtered useCases "" (Some role) None)
     /\ In uc (HomeClient.filtered useCases "" None None)
     /\ forall q intent,
          HomeClient.keep q (Some role) intent uc
          = HomeClient.keep q None intent uc)
  /\ (audience uc <> "everyone" -> role <> "" ->
        (In uc (HomeClient.filtered useCases "" (Some role) None)
         <-> audience uc = role)
        /\ (role_criterion (Some role) uc <-> audience uc = role)).
Proof.
  split.
  - intro He. repeat split.
    + intros r _ _. now right.
    + unfold HomeClient.filtered. apply filter_In. split; [assumption |].
      unfold HomeClient.keep. rewrite He. simpl.
      now rewrite andb_false_r, andb_false_r.
    + unfold HomeClient.filtered. apply filter_In. now split.
    + intros q intent. unfold HomeClient.keep. rewrite He. simpl.
      now rewrite andb_false_r, andb_false_r.
  - intros Hne Hrole.
    assert (Hcrit : role_criterion (Some role) uc <-> audience uc = role).
    { unfold role_criterion. split.
      - intro H. destruct (H role eq_refl Hrole); [assumption | contradiction].
      - intros H r [= <-] _. now left. }
    split; [| exact Hcrit].
    rewrite <- Hcrit, HomeClient_filtered_In.
    repeat split; try tauto.
    + intros i H'. discriminate.
    + intros H'. now elim H'.
Qed.

(** The wildcard on a catalog of three records, role [designer]. *)
Lemma role_wildcard_witness :
  In r_everyone [r_everyone; r_designer; r_writer]
  /\ In r_everyone
       (HomeClient.filtered [r_everyone; r_designer; r_writer] ""
          (Some "designer") None)
  /\ In r_everyone
       (HomeClient.filtered [r_everyone; r_designer; r_writer] "" None None).
Proof.
  assert (Hin : In r_everyone [r_everyone; r_designer; r_writer])
    by (simpl; auto).
  destruct (role_wildcard [r_everyone; r_designer; r_writer] r_everyone
              "designer" Hin) as [Hw _].
  destruct (Hw eq_refl) as (_ & H1 & H2 & _).
  repeat split; assumption.
Defined.

(** C2 as worded fails: the term is not trimmed.  The term [" x"] does not
    select the record titled ["x"], although the trimmed term occurs in the
    record's text. *)
Lemma text_search_term_not_trimmed :
  ~ (forall (search : string) (uc : UseCaseFlat),
        search <> "" ->
        (passes_text search uc = true <-> spec_text_criterion search uc)).
Proof.
  intro H.
  assert (Hne : " x" <> "") by discriminate.
  destruct (H " x" r_x Hne) as [_ Hback].
  assert (Hspec : spec_text_criterion " x" r_x).
  { exists "", "". reflexivity. }
  specialize (Hback Hspec). vm_compute in Hback. discriminate.
Qed.

(** C2, amended.  The record passes the free-text branch iff the search
    term is empty or the lowercased term, as typed and not trimmed, occurs
    in the lowercased text made of the non-empty values among title,
    one_liner, description, guest_name, episode_title, each tool and
    category, joined by single spaces. *)
Theorem text_search_untrimmed (search : string) (uc : UseCaseFlat) :
  (passes_text search uc = true
   <-> search = ""
       \/ substring_of
            (toLowerCase search)
            (toLowerCase
               (join " "
                  (filter_Boolean
                     ([ Some (title uc); one_liner uc; Some (description uc);
                        guest_name uc; Some (episode_title uc) ]
                        ++ map Some (tools uc)
                        ++ [ Some (category uc) ])))))
  /\ passes_text "" uc = true.
Proof.
  split; [| reflexivity].
  unfold passes_text.
  rewrite HomeClient_keep_spec. unfold text_criterion.
  change (HomeClient.searchable uc) with
    (toLowerCase
       (join " "
          (filter_Boolean
             ([ Some (title uc); one_liner uc; Some (description uc);
                guest_name uc; Some (episode_title uc) ]
                ++ map Some (tools uc)
                ++ [ Some (category uc) ])))).
  split.
  - intros (_ & _ & H). destruct search as [| c s]; [now left |].
    right. apply H. discriminate.
  - intros H. repeat split.
    + intros r H'. discriminate.
    + intros i H'. discriminate.
    + intro Hne. destruct H as [-> | H]; [now elim Hne | assumption].
Qed.

(* ================================================================== *)
(** ** The visible window and the picks *)
(* ================================================================== *)

(** C5.  Collapsed, a section shows the first [min 6 |group|] members of
    its group in order; expanded, it shows the whole group in order; the
    page size is 6. *)
Theorem window_collapsed_and_expanded (group : list UseCaseFlat) :
  HomeClient.visible false group = firstn (Nat.min 6 (length group)) group
  /\ HomeClient.visible false group = firstn 6 group
  /\ length (HomeClient.visible false group) = Nat.min 6 (length group)
  /\ HomeClient.visible true group = group
  /\ HomeClient.CARDS_PER_CATEGORY = 6.
Proof.
  unfold HomeClient.visible, slice0, HomeClient.CARDS_PER_CATEGORY.
  repeat split.
  - destruct (Nat.min_spec 6 (length group)) as [[Hlt ->] | [Hge ->]].
    + reflexivity.
    + rewrite firstn_all. symmetry. apply firstn_all2. assumption.
  - rewrite length_firstn. lia.
  - rewrite Nat.min_id. apply firstn_all.
Qed.

Lemma filter_filter_comm {A : Type} (f g : A -> bool) (l : list A) :
  filter f (filter g l) = filter g (filter f l).
Proof.
  induction l as [| x l IH]; simpl; [reflexivity |].
  destruct (g x) eqn:Hg, (f x) eqn:Hf; simpl; rewrite ?Hg, ?Hf, IH;
    reflexivity.
Qed.

(** C8.  The picks shown are the picks of the evaluated result, in the
    order of that result: it is the same list as evaluating the query over
    the catalog's picks, a record is among them iff it is in the evaluated
    result and flagged as a pick. *)
Theorem picks_respect_query
  (useCases : list UseCaseFlat) (search : string)
  (selectedRole selectedIntent : option string) :
  let result :=
    HomeClient.filtered useCases search selectedRole selectedIntent in
  HomeClient.filteredPicks result = filter (fun uc => is_pick uc) result
  /\ HomeClient.filteredPicks result
     = HomeClient.filtered (HomeClient.picks useCases) search selectedRole
         selectedIntent
  /\ (forall uc, In uc (HomeClient.filteredPicks result)
                 <-> In uc result /\ is_pick uc = true)
  /\ (forall uc, In uc (HomeClient.filteredPicks result)
                 <-> In uc useCases
                     /\ is_pick uc = true
                     /\ role_criterion selectedRole uc
                     /\ intent_criterion selectedIntent uc
                     /\ text_criterion HomeClient.searchable search uc).
Proof.
  cbv zeta. unfold HomeClient.filteredPicks, HomeClient.picks.
  split; [reflexivity |]. split; [| split].
  - unfold HomeClient.filtered. apply filter_filter_comm.
  - intro uc. now rewrite filter_In.
  - intro uc. rewrite filter_In, HomeClient_filtered_In. tauto.
Qed.

(* ================================================================== *)
(** ** The random draw *)
(* ================================================================== *)

Lemma random_index_in_range (random : Q) (n : nat) :
  (0 <= random)%Q -> (random < 1)%Q -> (0 < n)%nat ->
  (Z.to_nat (Qfloor (random * inject_Z (Z.of_nat n))) < n)%nat.
Proof.
  intros H0 H1 Hn.
  set (x := (random * inject_Z (Z.of_nat n))%Q).
  assert (Hpos : (0 < inject_Z (Z.of_nat n))%Q).
  { change 0%Q with (inject_Z 0). rewrite <- Zlt_Qlt. lia. }
  assert (Hx0 : (0 <= x)%Q).
  { unfold x. apply Qmult_le_0_compat; [assumption |].
    now apply Qlt_le_weak. }
  assert (Hx1 : (x < inject_Z (Z.of_nat n))%Q).
  { unfold x.
    setoid_replace (inject_Z (Z.of_nat n))
      with (1 * inject_Z (Z.of_nat n))%Q at 2 by ring.
    apply Qmult_lt_compat_r; assumption. }
  assert (Hf0 : (0 <= Qfloor x)%Z).
  { change 0%Z with (Qfloor 0). now apply Qfloor_resp_le. }
  assert (Hf1 : (Qfloor x < Z.of_nat n)%Z).
  { rewrite Zlt_Qlt. eapply Qle_lt_trans; [apply Qfloor_le | exact Hx1]. }
  lia.
Qed.

Lemma nth_error_in_range {A : Type} (l : list A) (i : nat) :
  (i < length l)%nat -> exists x, nth_error l i = Some x /\ In x l.
Proof.
  intro H. destruct (nth_error l i) as [x |] eqn:E.
  - exists x. split; [reflexivity |]. eapply nth_error_In; eassumption.
  - apply nth_error_None in E. lia.
Qed.

(** C6 as worded fails: with an empty pool and an empty catalog the draw
    completes normally with [undefined]; nothing is thrown. *)
Lemma sample_empty_catalog_raises_nothing :
  HomeClient.handleSurpriseMe 0%Q [] [] = Normal None
  /\ ~ (exists e, HomeClient.handleSurpriseMe 0%Q [] [] = Throw e).
Proof.
  split; [reflexivity |]. intros (e & H). discriminate.
Qed.

(** C6, amended.  For a random number in [0, 1): a non-empty pool yields
    one of its members (the single member of a pool of size 1); an empty
    pool over a non-empty catalog yields a catalog record; an empty pool
    over an empty catalog yields [undefined]; and no error is raised in any
    case. *)
Theorem sample_draws_from_pool
  (random : Q) (filtered useCases : list UseCaseFlat)
  (Hlo : (0 <= random)%Q) (Hhi : (random < 1)%Q) :
  (filtered <> [] ->
     exists r, HomeClient.handleSurpriseMe random filtered useCases
               = Normal (Some r)
               /\ In r filtered)
  /\ (forall r, filtered = [r] ->
        HomeClient.handleSurpriseMe random filtered useCases
        = Normal (Some r))
  /\ (filtered = [] -> useCases <> [] ->
        exists r, HomeClient.handleSurpriseMe random filtered useCases
                  = Normal (Some r)
                  /\ In r useCases)
  /\ (filtered = [] -> useCases = [] ->
        HomeClient.handleSurpriseMe random filtered useCases = Normal None)
  /\ (forall e, HomeClient.handleSurpriseMe random filtered useCases
                <> Throw e).
Proof.
  assert (Hpool : forall pool : list UseCaseFlat, pool <> [] ->
            exists r,
              nth_error pool
                (Z.to_nat
                   (Qfloor (random * inject_Z (Z.of_nat (length pool)))))
              = Some r /\ In r pool).
  { intros pool Hne. apply nth_error_in_range.
    apply random_index_in_range; try assumption.
    destruct pool; [now elim Hne | simpl; lia]. }
  assert (Hfirst : filtered <> [] ->
            exists r, HomeClient.handleSurpriseMe random filtered useCases
                      = Normal (Some r) /\ In r filtered).
  { intro Hne. unfold HomeClient.handleSurpriseMe.
    destruct filtered as [| r0 rest]; [now elim Hne |].
    change (0 <? length (r0 :: rest))%nat with true. cbv iota zeta.
    destruct (Hpool (r0 :: rest) Hne) as (r & -> & Hin). now exists r. }
  split; [exact Hfirst |]. split; [| split; [| split]].
  - intros r ->. destruct Hfirst as (r' & -> & [<- | []]); [discriminate |].
    reflexivity.
  - intros -> Hne. unfold HomeClient.handleSurpriseMe.
    change (0 <? length (@nil UseCaseFlat))%nat with false. cbv iota zeta.
    destruct (Hpool useCases Hne) as (r & -> & Hin). now exists r.
  - intros -> ->. unfold HomeClient.handleSurpriseMe. simpl.
    now destruct (Z.to_nat _).
  - intros e. unfold HomeClient.handleSurpriseMe. discriminate.
Qed.

(** A draw at one half from a pool of two records. *)
Lemma sample_draws_from_pool_witness :
  exists r,
    HomeClient.handleSurpriseMe (1 # 2)%Q [r_everyone; r_designer] [r_writer]
    = Normal (Some r)
    /\ In r [r_everyone; r_designer].
Proof.
  assert (Hlo : (0 <= 1 # 2)%Q) by (unfold Qle; simpl; lia).
  assert (Hhi : (1 # 2 < 1)%Q) by (unfold Qlt; simpl; lia).
  destruct (sample_draws_from_pool (1 # 2)%Q [r_everyone; r_designer]
              [r_writer] Hlo Hhi) as [H _].
  apply H. discriminate.
Defined.

(* ================================================================== *)
(** ** Loading *)
(* ================================================================== *)



(* ================================================================== *)
(** ** Sorting *)
(* ================================================================== *)

Lemma sort_insert_perm {A : Type} (cmp : A -> A -> Z) (x : A) (l : list A) :
  Permutation (sort_insert cmp x l) (x :: l).
Proof.
  induction l as [| y l IH]; simpl; [reflexivity |].
  destruct (cmp x y <=? 0)%Z; [reflexivity |].
  rewrite IH. apply perm_swap.
Qed.

Lemma sort_perm {A : Type} (cmp : A -> A -> Z) (l : list A) :
  Permutation (sort cmp l) l.
Proof.
  induction l as [| x l IH]; simpl; [reflexivity |].
  rewrite sort_insert_perm. now apply perm_skip.
Qed.

Lemma sort_In {A : Type} (cmp : A -> A -> Z) (l : list A) (x : A) :
  In x (sort cmp l) <-> In x l.
Proof.
  split; apply Permutation_in; [| symmetry]; apply sort_perm.
Qed.

(* ================================================================== *)
(** ** Facet value lists *)
(* ================================================================== *)

Lemma set_add_In (s : list string) (x y : string) :
  In y (set_add s x) <-> In y s \/ y = x.
Proof.
  unfold set_add. destruct (arr_includes s x) eqn:E.
  - apply arr_includes_In in E. split; [tauto |].
    intros [H | ->]; assumption.
  - rewrite in_app_iff. simpl. intuition congruence.
Qed.

Lemma guarded_values_truthy {A : Type} (f : A -> string) (l : list A) :
  forall acc : list string,
    ~ In "" acc ->
    ~ In ""
        (fold_left
           (fun acc x => if truthy (f x) then set_add acc (f x) else acc)
           l acc).
Proof.
  induction l as [| x l IH]; intros acc Hacc; simpl; [assumption |].
  apply IH. destruct (truthy (f x)) eqn:Ht; [| assumption].
  rewrite set_add_In. intros [H | H]; [contradiction |].
  apply truthy_true_iff in Ht. congruence.
Qed.

(** C9.  The category and audience lists never hold the empty string: each
    value is tested before it is added.  The tool list does: the values of
    [tools_mentioned] are added untested, so an empty tool name mentioned
    by an episode is among the tool options. *)
Theorem facet_values_and_empty_strings :
  (forall useCases, ~ In "" (Data.getAllCategories useCases))
  /\ (forall useCases, ~ In "" (Data.getAllAudiences useCases))
  /\ Data.getAllTools [ep_blank_tool] = [""; "cursor"]
  /\ In "" (Data.getAllTools [ep_blank_tool]).
Proof.
  split; [| split; [| split]].
  - intro useCases. unfold Data.getAllCategories. rewrite sort_In.
    apply (guarded_values_truthy category). intros [].
  - intro useCases. unfold Data.getAllAudiences. rewrite sort_In.
    apply (guarded_values_truthy audience). intros [].
  - reflexivity.
  - left. reflexivity.
Qed.

(* ================================================================== *)
(** ** Objects as dictionaries *)
(* ================================================================== *)

Lemma get_own_None {V : Type} (o : object V) (k : string) :
  get_own o k = None <-> ~ In k (map fst o).
Proof.
  induction o as [| [k' v] o IH]; simpl; [tauto |].
  destruct (String.eqb_spec k k') as [-> | Hne].
  - split; [discriminate | intro H; elim H; now left].
  - rewrite IH. intuition congruence.
Qed.

Lemma get_own_Some {V : Type} (o : object V) (k : string) (v : V) :
  get_own o k = Some v -> In (k, v) o.
Proof.
  induction o as [| [k' v'] o IH]; simpl; [discriminate |].
  destruct (String.eqb_spec k k') as [-> | Hne].
  - intros [= ->]. now left.
  - intro H. right. now apply IH.
Qed.

Lemma map_fst_update_own {V : Type} (k : string) (v : V) (o : object V) :
  map fst (update_own k v o) = map fst o.
Proof.
  induction o as [| [k' v'] o IH]; simpl; [reflexivity |].
  destruct (String.eqb k k'); simpl; [reflexivity | now rewrite IH].
Qed.

Lemma update_own_In {V : Type} (k k' : string) (v v' : V) (o : object V) :
  NoDup (map fst o) ->
  In (k', v') (update_own k v o) ->
  (k' = k /\ v' = v) \/ (k' <> k /\ In (k', v') o).
Proof.
  induction o as [| [k0 v0] o IH]; simpl; [tauto |].
  intros Hnd Hin. inversion Hnd as [| ? ? Hnotin Hnd']; subst.
  destruct (String.eqb_spec k k0) as [-> | Hne].
  - destruct Hin as [[= <- <-] | Hin]; [now left |].
    right. split; [| now right].
    intros ->. apply Hnotin. change k0 with (fst (k0, v')).
    now apply in_map.
  - destruct Hin as [[= <- <-] | Hin].
    + right. split; [congruence | now left].
    + destruct (IH Hnd' Hin) as [H | [H1 H2]]; [now left |].
      right. split; [assumption | now right].
Qed.

Lemma update_own_concat {A : Type} (k : string) (arr x : list A)
  (o : object (list A)) :
  get_own o k = Some arr ->
  Permutation (concat (map snd (update_own k (arr ++ x) o)))
              (concat (map snd o) ++ x).
Proof.
  induction o as [| [k' v'] o IH]; simpl; [discriminate |].
  destruct (String.eqb_spec k k') as [-> | Hne].
  - intros [= ->]. simpl. rewrite <- !app_assoc.
    apply Permutation_app_head, Permutation_app_comm.
  - intro H. simpl. rewrite <- app_assoc.
    apply Permutation_app_head. now apply IH.
Qed.

Lemma define_own_perm {V : Type} (k : string) (v : V) (o : object V) :
  Permutation (define_own k v o) ((k, v) :: o).
Proof.
  induction o as [| [k' v'] o IH]; simpl; [reflexivity |].
  destruct (array_index k) as [n |], (array_index k') as [n' |];
    try reflexivity;
    try (rewrite IH; apply perm_swap).
  destruct (n <? n')%N; [reflexivity |]. rewrite IH. apply perm_swap.
Qed.

Lemma get_own_define_own {V : Type} (k : string) (v : V) (o : object V) :
  ~ In k (map fst o) -> get_own (define_own k v o) k = Some v.
Proof.
  induction o as [| [k' v'] o IH]; simpl; intro Hfresh.
  - now rewrite String.eqb_refl.
  - assert (Hne : String.eqb k k' = false)
      by (apply String.eqb_neq; intros ->; tauto).
    destruct (array_index k) as [n |], (array_index k') as [n' |];
      try destruct (n <? n')%N; simpl;
      rewrite ?String.eqb_refl, ?Hne; try reflexivity; apply IH; tauto.
Qed.

Lemma update_own_define_own {V : Type} (k : string) (v v' : V)
  (o : object V) :
  ~ In k (map fst o) ->
  update_own k v' (define_own k v o) = define_own k v' o.
Proof.
  induction o as [| [k0 v0] o IH]; simpl; intro Hfresh.
  - now rewrite String.eqb_refl.
  - assert (Hne : String.eqb k k0 = false)
      by (apply String.eqb_neq; intros ->; tauto).
    destruct (array_index k) as [n |], (array_index k0) as [n0 |];
      try destruct (n <? n0)%N; simpl;
      rewrite ?String.eqb_refl, ?Hne; try reflexivity;
      f_equal; apply IH; tauto.
Qed.

Lemma Permutation_concat {A : Type} (l l' : list (list A)) :
  Permutation l l' -> Permutation (concat l) (concat l').
Proof.
  induction 1 as [| x l l' _ IH | x y l | l l' l'' _ IH1 _ IH2]; simpl.
  - reflexivity.
  - now apply Permutation_app_head.
  - rewrite !app_assoc. apply Permutation_app_tail, Permutation_app_comm.
  - now transitivity (concat l').
Qed.

(** *** Array-index keys denote distinct numbers *)

Lemma digit_of_bound (c : ascii) (d : N) : digit_of c = Some d -> (d < 10)%N.
Proof.
  unfold digit_of.
  destruct ((48 <=? N_of_ascii c)%N && (N_of_ascii c <=? 57)%N) eqn:E;
    [| discriminate].
  apply andb_true_iff in E. destruct E as [E1 E2].
  apply N.leb_le in E1, E2. intros [= <-]. lia.
Qed.

Lemma digit_of_inj (c c' : ascii) (d : N) :
  digit_of c = Some d -> digit_of c' = Some d -> c = c'.
Proof.
  unfold digit_of.
  destruct ((48 <=? N_of_ascii c)%N && (N_of_ascii c <=? 57)%N) eqn:E;
    [| discriminate].
  destruct ((48 <=? N_of_ascii c')%N && (N_of_ascii c' <=? 57)%N) eqn:E';
    [| discriminate].
  apply andb_true_iff in E, E'. destruct E as [E1 _], E' as [E1' _].
  apply N.leb_le in E1, E1'. intros [= <-] [= H].
  assert (Heq : N_of_ascii c = N_of_ascii c') by lia.
  rewrite <- (ascii_N_embedding c), <- (ascii_N_embedding c').
  now rewrite Heq.
Qed.

Lemma parse_digits_bounds (s : string) :
  forall acc n, parse_digits acc s = Some n ->
    (acc * 10 ^ N.of_nat (String.length s) <= n
     < (acc + 1) * 10 ^ N.of_nat (String.length s))%N.
Proof.
  induction s as [| c s IH]; intros acc n; simpl String.length.
  - simpl. intros [= <-]. lia.
  - cbn [parse_digits]. destruct (digit_of c) as [d |] eqn:Ed;
      [| discriminate].
    intro H. apply IH in H. apply digit_of_bound in Ed.
    rewrite Nat2N.inj_succ, N.pow_succ_r'. nia.
Qed.

Lemma parse_digits_inj (s s' : string) :
  String.length s = String.length s' ->
  forall acc acc' n,
    parse_digits acc s = Some n -> parse_digits acc' s' = Some n ->
    acc = acc' /\ s = s'.
Proof.
  revert s'. induction s as [| c s IH]; intros [| c' s'] Hlen;
    try discriminate; intros acc acc' n.
  - simpl. intros [= <-] [= <-]. now split.
  - cbn [parse_digits].
    destruct (digit_of c) as [d |] eqn:Ed; [| discriminate].
    destruct (digit_of c') as [d' |] eqn:Ed'; [| discriminate].
    intros H H'. injection Hlen as Hlen.
    destruct (IH s' Hlen _ _ _ H H') as [Hacc ->].
    pose proof (digit_of_bound _ _ Ed). pose proof (digit_of_bound _ _ Ed').
    assert (acc = acc' /\ d = d') as [-> ->] by lia.
    split; [reflexivity |]. f_equal. eapply digit_of_inj; eassumption.
Qed.

Lemma digit_of_zero (c : ascii) : digit_of c = Some 0%N -> c = "0"%char.
Proof.
  intro H. apply (digit_of_inj c "0"%char 0%N); [assumption | reflexivity].
Qed.

Lemma canonical_bounds (c : ascii) (s : string) (n : N) :
  Ascii.eqb c "0"%char = false ->
  parse_digits 0 (String c s) = Some n ->
  (10 ^ N.of_nat (String.length s) <= n
   < 10 ^ N.of_nat (S (String.length s)))%N.
Proof.
  intros Hc. cbn [parse_digits].
  destruct (digit_of c) as [d |] eqn:Ed; [| discriminate].
  intro H. apply parse_digits_bounds in H.
  pose proof (digit_of_bound _ _ Ed) as Hd.
  assert (d <> 0%N).
  { intros ->. apply digit_of_zero in Ed. subst c. discriminate. }
  rewrite Nat2N.inj_succ, N.pow_succ_r'. nia.
Qed.

Lemma array_index_inj (k k' : string) (n : N) :
  array_index k = Some n -> array_index k' = Some n -> k = k'.
Proof.
  unfold array_index.
  destruct k as [| c s]; [discriminate |].
  destruct k' as [| c' s']; [discriminate |].
  destruct (Ascii.eqb c "0") eqn:Ec; destruct (Ascii.eqb c' "0") eqn:Ec'.
  - apply Ascii.eqb_eq in Ec, Ec'. subst.
    destruct s; [| discriminate]. destruct s'; [| discriminate]. reflexivity.
  - destruct s; [| discriminate]. intros [= <-].
    destruct (parse_digits 0 (String c' s')) as [m |] eqn:E; [| discriminate].
    destruct (m <? 4294967295)%N; [| discriminate]. intros [= ->].
    apply canonical_bounds in E; [| assumption].
    assert (0 < 10 ^ N.of_nat (String.length s'))%N
      by (apply N.neq_0_lt_0, N.pow_nonzero; discriminate).
    lia.
  - destruct (parse_digits 0 (String c s)) as [m |] eqn:E; [| discriminate].
    destruct (m <? 4294967295)%N; [| discriminate]. intros [= ->].
    destruct s'; [| discriminate]. intros [= <-].
    apply canonical_bounds in E; [| assumption].
    assert (0 < 10 ^ N.of_nat (String.length s))%N
      by (apply N.neq_0_lt_0, N.pow_nonzero; discriminate).
    lia.
  - destruct (parse_digits 0 (String c s)) as [m |] eqn:E; [| discriminate].
    destruct (m <? 4294967295)%N; [| discriminate]. intros [= ->].
    destruct (parse_digits 0 (String c' s')) as [m' |] eqn:E';
      [| discriminate].
    destruct (m' <? 4294967295)%N; [| discriminate]. intros [= ->].
    pose proof (canonical_bounds _ _ _ Ec E) as B.
    pose proof (canonical_bounds _ _ _ Ec' E') as B'.
    assert (Hlen : String.length s = String.length s').
    { destruct (Nat.lt_trichotomy (String.length s) (String.length s'))
        as [Hlt | [Heq | Hgt]]; [exfalso | assumption | exfalso].
      - assert (10 ^ N.of_nat (S (String.length s))
                <= 10 ^ N.of_nat (String.length s'))%N
          by (apply N.pow_le_mono_r; [discriminate | lia]).
        lia.
      - assert (10 ^ N.of_nat (S (String.length s'))
                <= 10 ^ N.of_nat (String.length s))%N
          by (apply N.pow_le_mono_r; [discriminate | lia]).
        lia. }
    assert (Hlen' : String.length (String c s) = String.length (String c' s'))
      by (simpl; congruence).
    destruct (parse_digits_inj _ _ Hlen' _ _ _ E E') as [_ H]. exact H.
Qed.

(* ================================================================== *)
(** ** The order of own keys *)
(* ================================================================== *)

Lemma index_of_lt (k : string) (l : list string) :
  In k l -> index_of k l < length l.
Proof.
  induction l as [| x l IH]; simpl; [tauto |].
  destruct (String.eqb_spec k x) as [-> | Hne]; [lia |].
  intros [H | H]; [congruence | apply IH in H; lia].
Qed.

Lemma index_of_app_in (k : string) (l l' : list string) :
  In k l -> index_of k (l ++ l') = index_of k l.
Proof.
  induction l as [| x l IH]; simpl; [tauto |].
  destruct (String.eqb_spec k x) as [-> | Hne]; [reflexivity |].
  intros [H | H]; [congruence | now rewrite IH].
Qed.

Lemma index_of_app_new (k : string) (l : list string) :
  ~ In k l -> index_of k (l ++ [k]) = length l.
Proof.
  induction l as [| x l IH]; simpl.
  - now rewrite String.eqb_refl.
  - destruct (String.eqb_spec k x) as [-> | Hne]; [tauto |].
    intro H. rewrite IH; tauto.
Qed.

Lemma key_precedes_app (keys l : list string) (k1 k2 : string) :
  In k1 keys -> In k2 keys ->
  key_precedes keys k1 k2 -> key_precedes (keys ++ l) k1 k2.
Proof.
  unfold key_precedes. intros H1 H2.
  destruct (array_index k1), (array_index k2); try tauto.
  now rewrite !index_of_app_in.
Qed.

Lemma key_precedes_new (keys : list string) (k' k : string) :
  In k' keys -> ~ In k keys -> k' <> k ->
  (forall n n', array_index k = Some n -> array_index k' = Some n' ->
                (n' <= n)%N) ->
  array_index k = None \/ array_index k' <> None ->
  key_precedes (keys ++ [k]) k' k.
Proof.
  unfold key_precedes. intros Hin Hnotin Hne Hle Hkind.
  destruct (array_index k') as [n' |] eqn:E', (array_index k) as [n |] eqn:E.
  - specialize (Hle n n' eq_refl eq_refl).
    assert (n <> n').
    { intros ->. apply Hne. eapply array_index_inj; eassumption. }
    lia.
  - exact I.
  - destruct Hkind; congruence.
  - rewrite index_of_app_in, index_of_app_new by assumption.
    now apply index_of_lt.
Qed.

Lemma StronglySorted_impl_In {A : Type} (R R' : A -> A -> Prop)
  (l : list A) :
  (forall a b, In a l -> In b l -> R a b -> R' a b) ->
  StronglySorted R l -> StronglySorted R' l.
Proof.
  induction l as [| x l IH]; intros Himp Hs; [constructor |].
  inversion Hs as [| ? ? Hs' Hall]; subst. constructor.
  - apply IH; [| assumption].
    intros a b Ha Hb. apply Himp; now right.
  - rewrite Forall_forall in *. intros y Hy.
    apply Himp; [now left | now right | now apply Hall].
Qed.

Lemma StronglySorted_map {A B : Type} (f : A -> B) (R : B -> B -> Prop)
  (l : list A) :
  StronglySorted R (map f l) <-> StronglySorted (fun a b => R (f a) (f b)) l.
Proof.
  induction l as [| x l IH]; simpl.
  - split; constructor.
  - split; intro Hs; inversion Hs as [| ? ? Hs' Hall]; subst; constructor;
      try (now apply IH).
    + rewrite Forall_forall in *. intros y Hy. apply Hall. now apply in_map.
    + rewrite Forall_forall in *. intros y Hy.
      apply in_map_iff in Hy. destruct Hy as (a & <- & Ha). now apply Hall.
Qed.

Lemma define_own_keys {V : Type} (k x : string) (v : V) (o : object V) :
  In x (map fst (define_own k v o)) <-> x = k \/ In x (map fst o).
Proof.
  pose proof (Permutation_map fst (define_own_perm k v o)) as P.
  simpl in P. split; intro H.
  - apply (Permutation_in _ P) in H. simpl in H. intuition congruence.
  - apply (Permutation_in _ (Permutation_sym P)). simpl.
    intuition congruence.
Qed.

Lemma define_own_sorted {V : Type} (keys : list string) (k : string) (v : V)
  (o : object V) :
  ~ In k (map fst o) ->
  (forall k', In k' (map fst o) -> In k' keys) ->
  ~ In k keys ->
  StronglySorted (key_precedes (keys ++ [k])) (map fst o) ->
  StronglySorted (key_precedes (keys ++ [k])) (map fst (define_own k v o)).
Proof.
  intros Hfresh Hsub Hnew.
  induction o as [| [k' v'] o IH]; intro Hs; simpl.
  - repeat constructor.
  - simpl in Hs, Hfresh, Hsub.
    inversion Hs as [| ? ? Hs' Hall]; subst.
    assert (Hne : k' <> k) by (intros ->; apply Hfresh; now left).
    assert (Hin' : In k' keys) by (apply Hsub; now left).
    assert (IH' : StronglySorted (key_precedes (keys ++ [k]))
                    (map fst (define_own k v o))).
    { apply IH; [tauto | intros; apply Hsub; now right | assumption]. }
    assert (Hafter : forall x, In x (map fst o) -> array_index k' = None ->
                               array_index x = None).
    { intros x Hx E'. rewrite Forall_forall in Hall.
      specialize (Hall x Hx). unfold key_precedes in Hall.
      rewrite E' in Hall. destruct (array_index x); tauto. }
    destruct (array_index k) as [n |] eqn:E,
             (array_index k') as [n' |] eqn:E'.
    + destruct (n <? n')%N eqn:Hlt; simpl.
      * apply N.ltb_lt in Hlt. constructor; [assumption |].
        constructor.
        -- unfold key_precedes. now rewrite E, E'.
        -- rewrite Forall_forall in *. intros x Hx.
           specialize (Hall x Hx). unfold key_precedes in *.
           rewrite E. rewrite E' in Hall.
           destruct (array_index x); [lia | exact I].
      * apply N.ltb_ge in Hlt. constructor; [assumption |].
        rewrite Forall_forall in *. intros x Hx.
        apply define_own_keys in Hx. destruct Hx as [-> | Hx].
        -- apply key_precedes_new; try assumption.
           ++ intros m m'. rewrite E, E'. intros [= <-] [= <-]. assumption.
           ++ right. congruence.
        -- now apply Hall.
    + simpl. constructor; [assumption |].
      constructor.
      * unfold key_precedes. now rewrite E, E'.
      * rewrite Forall_forall. intros x Hx.
        unfold key_precedes. rewrite E, (Hafter x Hx eq_refl). exact I.
    + simpl. constructor; [assumption |].
      rewrite Forall_forall in *. intros x Hx.
      apply define_own_keys in Hx. destruct Hx as [-> | Hx].
      * unfold key_precedes. now rewrite E, E'.
      * now apply Hall.
    + simpl. constructor; [assumption |].
      rewrite Forall_forall in *. intros x Hx.
      apply define_own_keys in Hx. destruct Hx as [-> | Hx].
      * apply key_precedes_new; try assumption.
        -- intros m m'. rewrite E. discriminate.
        -- now left.
      * now apply Hall.
Qed.

(* ================================================================== *)
(** ** The grouping loop *)
(* ================================================================== *)

Lemma members_app (k : string) (p q : list UseCaseFlat) :
  members k (p ++ q) = members k p ++ members k q.
Proof. apply filter_app. Qed.

Lemma members_In (k : string) (p : list UseCaseFlat) (r : UseCaseFlat) :
  In r (members k p) <-> In r p /\ HomeClient.cat_key r = k.
Proof.
  unfold members. rewrite filter_In, String.eqb_eq. tauto.
Qed.

Lemma members_nil (k : string) (p : list UseCaseFlat) :
  ~ In k (map HomeClient.cat_key p) -> members k p = [].
Proof.
  intro H. destruct (members k p) as [| r l] eqn:E; [reflexivity |].
  assert (Hr : In r (members k p)) by (rewrite E; now left).
  apply members_In in Hr. destruct Hr as [Hr <-].
  elim H. now apply in_map.
Qed.

Lemma members_nonempty (k : string) (p : list UseCaseFlat) :
  In k (map HomeClient.cat_key p) -> members k p <> [].
Proof.
  intros H E. apply in_map_iff in H. destruct H as (r & Hk & Hr).
  assert (Hin : In r (members k p)) by (apply members_In; tauto).
  rewrite E in Hin. exact Hin.
Qed.

Lemma members_one (k : string) (r : UseCaseFlat) :
  members k [r] = if String.eqb (HomeClient.cat_key r) k then [r] else [].
Proof. reflexivity. Qed.

Lemma group_inv_nil : group_inv [] [].
Proof.
  unfold group_inv. simpl. repeat split; try constructor; tauto.
Qed.

Lemma group_step_existing (o : object (list UseCaseFlat)) (r : UseCaseFlat)
  (arr : list UseCaseFlat) :
  get_own o (HomeClient.cat_key r) = Some arr ->
  HomeClient.group_step o r
  = Normal (update_own (HomeClient.cat_key r) (arr ++ [r]) o).
Proof.
  intro Eg. unfold HomeClient.group_step, get. cbv zeta.
  now rewrite Eg, Eg.
Qed.

Lemma group_step_new (o : object (list UseCaseFlat)) (r : UseCaseFlat) :
  get_own o (HomeClient.cat_key r) = None ->
  inherited (HomeClient.cat_key r) = false ->
  HomeClient.group_step o r
  = Normal (define_own (HomeClient.cat_key r) [r] o).
Proof.
  intros Eg Hplain. unfold HomeClient.group_step, get. cbv zeta.
  unfold inherited in Hplain. rewrite Eg, Hplain.
  apply get_own_None in Eg.
  rewrite get_own_define_own by assumption. simpl.
  now rewrite update_own_define_own.
Qed.

Lemma group_step_inherited (o : object (list UseCaseFlat))
  (r : UseCaseFlat) :
  get_own o (HomeClient.cat_key r) = None ->
  inherited (HomeClient.cat_key r) = true ->
  HomeClient.group_step o r = Throw TypeError.
Proof.
  intros Eg Hinh. unfold HomeClient.group_step, get. cbv zeta.
  unfold inherited in Hinh. rewrite Eg, Hinh. cbv iota.
  now rewrite Eg.
Qed.

Lemma group_step_inv (p : list UseCaseFlat) (o : object (list UseCaseFlat))
  (r : UseCaseFlat) :
  group_inv p o ->
  inherited (HomeClient.cat_key r) = false ->
  exists o', HomeClient.group_step o r = Normal o'
             /\ group_inv (p ++ [r]) o'.
Proof.
  intros (Hnd & Hmem & Hcov & Hperm & Hsort) Hplain.
  pose proof (group_step_existing o r) as Hexisting.
  pose proof (group_step_new o r) as Hcreate.
  set (k := HomeClient.cat_key r) in *.
  assert (Hkeys : forall k', In k' (map fst o) ->
                             In k' (map HomeClient.cat_key p)).
  { intros k' Hk'. apply in_map_iff in Hk'.
    destruct Hk' as ([k0 v0] & <- & Hin). simpl. now apply (Hmem k0 v0). }
  destruct (get_own o k) as [arr |] eqn:Eg.
  - (* the group exists: push *)
    exists (update_own k (arr ++ [r]) o). split; [now apply Hexisting |].
    pose proof (get_own_Some _ _ _ Eg) as Harr.
    destruct (Hmem _ _ Harr) as [Harr_eq Hk_in].
    unfold group_inv. rewrite map_fst_update_own, map_app.
    split; [assumption |]. split; [| split; [| split]].
    + intros k' v' Hin.
      rewrite members_app, members_one, in_app_iff.
      apply update_own_In in Hin; [| assumption].
      destruct Hin as [[-> ->] | [Hne Hin]].
      * fold k. rewrite String.eqb_refl, <- Harr_eq. tauto.
      * destruct (Hmem _ _ Hin) as [-> Hk']. fold k.
        destruct (String.eqb_spec k k') as [E | _]; [congruence |].
        rewrite app_nil_r. tauto.
    + intros r' Hr'. apply in_app_iff in Hr'.
      destruct Hr' as [Hr' | [<- | []]]; [now apply Hcov |].
      fold k. change k with (fst (k, arr)). now apply in_map.
    + rewrite update_own_concat by assumption.
      now apply Permutation_app_tail.
    + eapply StronglySorted_impl_In; [| exact Hsort].
      intros a b Ha Hb. apply key_precedes_app; now apply Hkeys.
  - (* no such property *)
    exists (define_own k [r] o). split; [now apply Hcreate |].
    apply get_own_None in Eg.
    assert (Hnew : ~ In k (map HomeClient.cat_key p)).
    { intro H. apply in_map_iff in H. destruct H as (r' & Hk & Hr').
      apply Eg. rewrite <- Hk. now apply Hcov. }
    pose proof (define_own_perm k [r] o) as P.
    unfold group_inv. rewrite map_app.
    split; [| split; [| split; [| split]]].
    + eapply Permutation_NoDup;
        [apply Permutation_sym, (Permutation_map fst P) |].
      simpl. now constructor.
    + intros k' v' Hin.
      rewrite members_app, members_one, in_app_iff.
      apply (Permutation_in _ P) in Hin. destruct Hin as [[= <- <-] | Hin].
      * fold k. rewrite String.eqb_refl, members_nil by assumption.
        simpl. tauto.
      * destruct (Hmem _ _ Hin) as [-> Hk']. fold k.
        destruct (String.eqb_spec k k') as [E | _].
        -- elim Hnew. now rewrite E.
        -- rewrite app_nil_r. tauto.
    + intros r' Hr'. apply define_own_keys. apply in_app_iff in Hr'.
      destruct Hr' as [Hr' | [<- | []]]; [right; now apply Hcov | now left].
    + rewrite (Permutation_concat _ _ (Permutation_map snd P)). simpl.
      rewrite Hperm. apply Permutation_cons_append.
    + simpl. apply define_own_sorted; try assumption.
      eapply StronglySorted_impl_In; [| exact Hsort].
      intros a b Ha Hb. apply key_precedes_app; now apply Hkeys.
Qed.

Lemma group_loop_inv (rest : list UseCaseFlat) :
  forall (p : list UseCaseFlat) (o : object (list UseCaseFlat)),
    group_inv p o ->
    Forall (fun r => inherited (HomeClient.cat_key r) = false) rest ->
    exists o', HomeClient.group_loop o rest = Normal o'
               /\ group_inv (p ++ rest) o'.
Proof.
  induction rest as [| r rest IH]; intros p o Hinv Hplain; simpl.
  - exists o. rewrite app_nil_r. now split.
  - inversion Hplain as [| ? ? Hr Hrest]; subst.
    destruct (group_step_inv p o r Hinv Hr) as (o1 & -> & Hinv1). simpl.
    destruct (IH (p ++ [r]) o1 Hinv1 Hrest) as (o' & Hloop & Hinv').
    exists o'. split; [assumption |].
    now rewrite <- app_assoc in Hinv'.
Qed.

(** A record whose category key is inherited stops the loop. *)
Lemma group_loop_throws (rest : list UseCaseFlat) :
  forall (p : list UseCaseFlat) (o : object (list UseCaseFlat)),
    group_inv p o ->
    Forall (fun r => inherited (HomeClient.cat_key r) = false) p ->
    Exists (fun r => inherited (HomeClient.cat_key r) = true) rest ->
    HomeClient.group_loop o rest = Throw TypeError.
Proof.
  induction rest as [| r rest IH]; intros p o Hinv Hp Hex;
    [inversion Hex |].
  simpl. destruct (inherited (HomeClient.cat_key r)) eqn:Ei.
  - destruct (get_own o (HomeClient.cat_key r)) as [arr |] eqn:Eg.
    + exfalso. apply get_own_Some in Eg.
      destruct Hinv as (_ & Hmem & _).
      destruct (Hmem _ _ Eg) as [_ Hk].
      apply in_map_iff in Hk. destruct Hk as (r' & Hk & Hr').
      rewrite Forall_forall in Hp. specialize (Hp r' Hr'). congruence.
    + now rewrite group_step_inherited.
  - inversion Hex as [? ? Hr | ? ? Hrest]; subst; [congruence |].
    destruct (group_step_inv p o r Hinv Ei) as (o1 & -> & Hinv1). simpl.
    apply (IH (p ++ [r]) o1); try assumption.
    apply Forall_app. split; [assumption | now constructor].
Qed.

(* ================================================================== *)
(** ** Stability of the sort by member count *)
(* ================================================================== *)

Section StableSort.

Context {A : Type} (size : A -> nat) (before : A -> A -> Prop).

Lemma sort_insert_stable (x : A) (s : list A) :
  StronglySorted (size_then_before size before) s ->
  Forall (before x) s ->
  StronglySorted (size_then_before size before) (sort_insert (by_size size) x s).
Proof.
  induction s as [| y s IH]; intros Hs Hx; simpl.
  - repeat constructor.
  - inversion Hs as [| ? ? Hs' Hy]; subst.
    inversion Hx as [| ? ? Hxy Hx']; subst.
    unfold by_size at 1.
    destruct (Z.leb_spec (Z.of_nat (size y) - Z.of_nat (size x)) 0)
      as [Hle | Hgt].
    + constructor; [assumption |]. constructor.
      * unfold size_then_before.
        destruct (Nat.eq_dec (size x) (size y)); [now right | left; lia].
      * rewrite Forall_forall in *. intros z Hz.
        specialize (Hy z Hz). specialize (Hx' z Hz).
        unfold size_then_before in *.
        destruct (Nat.eq_dec (size x) (size z)); [now right | left; lia].
    + constructor; [now apply IH |].
      rewrite Forall_forall in *. intros z Hz.
      apply (Permutation_in _ (sort_insert_perm (by_size size) x s)) in Hz.
      destruct Hz as [<- | Hz]; [| now apply Hy].
      unfold size_then_before. lia.
Qed.

Lemma sort_stable (l : list A) :
  StronglySorted before l ->
  StronglySorted (size_then_before size before) (sort (by_size size) l).
Proof.
  induction l as [| x l IH]; intro Hs; simpl; [constructor |].
  inversion Hs as [| ? ? Hs' Hx]; subst.
  apply sort_insert_stable; [now apply IH |].
  rewrite Forall_forall in *. intros z Hz. apply Hx.
  now apply (Permutation_in _ (sort_perm (by_size size) l)).
Qed.

End StableSort.

(* ================================================================== *)
(** ** Grouping by category *)
(* ================================================================== *)

Lemma grouped_inv (records : list UseCaseFlat) :
  Forall (fun r => inherited (HomeClient.cat_key r) = false) records ->
  exists o, group_inv records o
            /\ HomeClient.grouped records
               = Normal (sort HomeClient.by_count o).
Proof.
  intro Hplain.
  destruct (group_loop_inv records [] [] group_inv_nil Hplain)
    as (o & Hloop & Hinv).
  exists o. split; [exact Hinv |].
  unfold HomeClient.grouped. now rewrite Hloop.
Qed.

Lemma grouped_throws (records : list UseCaseFlat) :
  Exists (fun r => inherited (HomeClient.cat_key r) = true) records ->
  HomeClient.grouped records = Throw TypeError.
Proof.
  intro Hex. unfold HomeClient.grouped.
  now rewrite (group_loop_throws records [] [] group_inv_nil (Forall_nil _)).
Qed.

Lemma grouped_members (records : list UseCaseFlat) :
  Forall (fun r => inherited (HomeClient.cat_key r) = false) records ->
  exists groups,
    HomeClient.grouped records = Normal groups
    /\ NoDup (map fst groups)
    /\ (forall k ms, In (k, ms) groups ->
          ms = members k records /\ In k (map HomeClient.cat_key records))
    /\ (forall r, In r records ->
          In (HomeClient.cat_key r, members (HomeClient.cat_key r) records)
             groups)
    /\ Permutation (concat (map snd groups)) records
    /\ entries_group_order records groups.
Proof.
  intro Hplain.
  destruct (grouped_inv records Hplain)
    as (o & (Hnd & Hmem & Hcov & Hperm & Hsort) & Hg).
  pose proof (sort_perm HomeClient.by_count o) as P.
  exists (sort HomeClient.by_count o). split; [exact Hg |].
  split; [| split; [| split; [| split]]].
  - eapply Permutation_NoDup;
      [apply Permutation_sym, (Permutation_map fst P) | assumption].
  - intros k ms Hin. apply Hmem. now apply (Permutation_in _ P).
  - intros r Hr. apply (Permutation_in _ (Permutation_sym P)).
    specialize (Hcov r Hr). apply in_map_iff in Hcov.
    destruct Hcov as ([k v] & Hk & Hin). simpl in Hk. subst k.
    destruct (Hmem _ _ Hin) as [<- _]. assumption.
  - rewrite (Permutation_concat _ _ (Permutation_map snd P)). assumption.
  - unfold entries_group_order.
    apply (sort_stable (fun g : string * list UseCaseFlat => length (snd g))
             (fun a b => key_precedes (map HomeClient.cat_key records)
                           (fst a) (fst b))).
    now apply StronglySorted_map.
Qed.

(** C4 as worded fails on the order of tied groups: a category spelled as
    an array index is enumerated before the others, whatever its first
    occurrence.  Here ["coding"] occurs first, both groups have one
    member, and the group ["1"] comes first. *)
Lemma group_order_array_index_key :
  HomeClient.grouped [r_designer; r_one]
  = Normal [("1", [r_one]); ("coding", [r_designer])]
  /\ ~ spec_group_order [r_designer; r_one]
         [("1", [r_one]); ("coding", [r_designer])].
Proof.
  split; [reflexivity |].
  unfold spec_group_order. intro Hs.
  inversion Hs as [| ? ? _ Hall]; subst.
  inversion Hall as [| ? ? Hrel _]; subst.
  simpl in Hrel. lia.
Qed.

(** C4, amended.  When no category key of the evaluated records is the
    name of a property inherited from [Object.prototype], grouping returns
    groups that partition the records: group keys are distinct, the group
    keyed [k] holds exactly the records of key [k] in their canonical
    order and is not empty, every record is in the group of its key and in
    no other, and the group sizes sum to the number of records.  Groups
    are in descending order of member count; groups of equal count keep
    the order of the object's own keys: keys spelled as array indices
    first, by ascending number, then the other keys by first occurrence.
    When no key is spelled as an array index, ties are thus broken by
    first occurrence. *)
Theorem group_by_category_partition (records : list UseCaseFlat)
  (Hplain : Forall (fun r => inherited (HomeClient.cat_key r) = false)
              records) :
  exists groups,
    HomeClient.grouped records = Normal groups
    /\ NoDup (map fst groups)
    /\ (forall k ms, In (k, ms) groups ->
          ms = filter (fun r => String.eqb (HomeClient.cat_key r) k) records
          /\ ms <> [])
    /\ (forall r, In r records ->
          exists ms, In (HomeClient.cat_key r, ms) groups /\ In r ms)
    /\ (forall r k ms, In (k, ms) groups -> In r ms ->
          In r records /\ k = HomeClient.cat_key r)
    /\ Permutation (concat (map snd groups)) records
    /\ list_sum (map (fun g => length (snd g)) groups) = length records
    /\ StronglySorted (fun a b => length (snd b) <= length (snd a)) groups
    /\ entries_group_order records groups
    /\ (Forall (fun r => array_index (HomeClient.cat_key r) = None) records
        -> spec_group_order records groups).
Proof.
  destruct (grouped_members records Hplain)
    as (groups & Hg & Hnd & Hmem & Hcov & Hperm & Hord).
  exists groups. split; [exact Hg |]. split; [exact Hnd |].
  split; [| split; [| split; [| split; [| split; [| split; [| split]]]]]].
  - intros k ms Hin. destruct (Hmem k ms Hin) as [-> Hk].
    split; [reflexivity | now apply members_nonempty].
  - intros r Hr. exists (members (HomeClient.cat_key r) records).
    split; [now apply Hcov | apply members_In; tauto].
  - intros r k ms Hin Hr. destruct (Hmem k ms Hin) as [-> _].
    apply members_In in Hr. intuition congruence.
  - exact Hperm.
  - rewrite <- (Permutation_length Hperm), length_concat, map_map.
    reflexivity.
  - eapply StronglySorted_impl_In; [| exact Hord].
    cbv beta. intros a b _ _ H. lia.
  - exact Hord.
  - intro Hnoidx. unfold spec_group_order.
    eapply StronglySorted_impl_In; [| exact Hord].
    cbv beta. intros [ka ma] [kb mb] Ha Hb H. simpl in *.
    destruct H as [H | [Heq H]]; [now left | right].
    split; [assumption |].
    assert (Hnone : forall k ms, In (k, ms) groups -> array_index k = None).
    { intros k ms Hin. destruct (Hmem k ms Hin) as [_ Hk].
      apply in_map_iff in Hk. destruct Hk as (r & <- & Hr).
      rewrite Forall_forall in Hnoidx. now apply Hnoidx. }
    unfold key_precedes in H.
    now rewrite (Hnone _ _ Ha), (Hnone _ _ Hb) in H.
Qed.

(** Three records in two categories: the larger group comes first. *)
Lemma group_by_category_partition_witness :
  exists groups,
    HomeClient.grouped [r_everyone; r_writer; r_designer] = Normal groups
    /\ map fst groups = ["coding"; "writing"]
    /\ spec_group_order [r_everyone; r_writer; r_designer] groups.
Proof.
  assert (Hplain : Forall
                     (fun r => inherited (HomeClient.cat_key r) = false)
                     [r_everyone; r_writer; r_designer])
    by (repeat constructor).
  destruct (group_by_category_partition
              [r_everyone; r_writer; r_designer] Hplain)
    as (groups & Hg & _ & _ & _ & _ & _ & _ & _ & _ & Hspec).
  exists groups. split; [exact Hg |]. split.
  - vm_compute in Hg. injection Hg as <-. reflexivity.
  - apply Hspec. repeat constructor.
Defined.

(** C10.  A record whose category is the empty string is grouped under
    ["other"], provided that no category key of the evaluated records is
    the name of a property inherited from [Object.prototype].  When one
    is, the loop reads the inherited value in place of a group, calls a
    [push] that it does not have, and the grouping ends on a [TypeError]:
    no record is grouped, the ones without category included. *)
Theorem falsy_category_goes_to_other :
  (forall records r,
      Forall (fun r => inherited (HomeClient.cat_key r) = false) records ->
      In r records -> category r = "" ->
      exists groups ms,
        HomeClient.grouped records = Normal groups
        /\ In ("other", ms) groups /\ In r ms)
  /\ (forall records,
        Exists (fun r => inherited (HomeClient.cat_key r) = true) records ->
        HomeClient.grouped records = Throw TypeError)
  /\ HomeClient.grouped [r_x; r_everyone]
     = Normal [("other", [r_x]); ("coding", [r_everyone])]
  /\ HomeClient.grouped [r_x; r_constructor] = Throw TypeError.
Proof.
  split; [| split; [| split]].
  - intros records r Hplain Hr Hcat.
    destruct (grouped_members records Hplain)
      as (groups & Hg & _ & _ & Hcov & _).
    assert (Hkey : HomeClient.cat_key r = "other").
    { unfold HomeClient.cat_key. now rewrite Hcat. }
    exists groups, (members "other" records). split; [exact Hg |].
    split.
    + rewrite <- Hkey. now apply Hcov.
    + apply members_In. tauto.
  - exact grouped_throws.
  - reflexivity.
  - reflexivity.
Qed.

(* ================================================================== *)
(** ** Further properties: evaluation without constraint *)
(* ================================================================== *)

Lemma filter_all_true {A : Type} (f : A -> bool) (l : list A) :
  (forall x, In x l -> f x = true) -> filter f l = l.
Proof.
  induction l as [| x l IH]; intro H; simpl; [reflexivity |].
  rewrite (H x) by now left. f_equal. apply IH. intros y Hy. apply H.
  now right.
Qed.

Lemma filter_length_le {A : Type} (f : A -> bool) (l : list A) :
  length (filter f l) <= length l.
Proof.
  induction l as [| x l IH]; simpl; [lia |].
  destruct (f x); simpl; lia.
Qed.

Lemma filter_same_length {A : Type} (f : A -> bool) (l : list A) :
  length (filter f l) = length l -> filter f l = l.
Proof.
  induction l as [| x l IH]; simpl; [reflexivity |].
  pose proof (filter_length_le f l) as Hle.
  destruct (f x); simpl; intro H; [f_equal; apply IH |]; lia.
Qed.

Lemma truthy_opt_false (v : option string) :
  truthy_opt v = false <-> (forall s, v = Some s -> s = "").
Proof.
  destruct v as [s |]; simpl.
  - rewrite truthy_false_iff. split; [intros -> s' [= <-]; reflexivity |].
    intro H. now apply H.
  - split; [intros _ s H; discriminate | reflexivity].
Qed.

(** X1.  Without active filter the home page evaluates to the whole
    catalog, in its order, and the status line reads "showing all"; the
    state set by the "clear all filters" buttons does so on each of the
    three lists. *)
Theorem no_active_filter_keeps_catalog
  (useCases : list UseCaseFlat) (episodes : list Episode) (search : string)
  (selectedRole selectedIntent : option string)
  (Hinactive :
     HomeClient.hasActiveFilters search selectedRole selectedIntent = false) :
  HomeClient.filtered useCases search selectedRole selectedIntent = useCases
  /\ HomeClient.showingAll
       (HomeClient.filtered useCases search selectedRole selectedIntent)
       useCases = true
  /\ HomeClient.filtered useCases "" None None = useCases
  /\ UseCasesClient.filtered useCases "" None [] [] = useCases
  /\ CatalogClient.filtered episodes "" None [] [] = episodes.
Proof.
  unfold HomeClient.hasActiveFilters in Hinactive.
  apply orb_false_iff in Hinactive. destruct Hinactive as [Hri Hs].
  apply orb_false_iff in Hri. destruct Hri as [Hr Hi].
  apply truthy_false_iff in Hs. subst search.
  assert (Hall : HomeClient.filtered useCases "" selectedRole selectedIntent
                 = useCases).
  { apply filter_all_true. intros uc _.
    change (HomeClient.keep (toLowerCase "") selectedRole selectedIntent uc
            = true).
    apply HomeClient_keep_spec. repeat split.
    - intros r Hsel Hne. rewrite truthy_opt_false in Hr.
      elim Hne. now apply Hr.
    - intros i Hsel Hne. rewrite truthy_opt_false in Hi.
      elim Hne. now apply Hi.
    - intro Hne. now elim Hne. }
  split; [exact Hall |]. split; [| split; [| split]].
  - unfold HomeClient.showingAll. rewrite Hall. apply Nat.eqb_refl.
  - apply filter_all_true. intros uc _. reflexivity.
  - apply filter_all_true. intros uc _. reflexivity.
  - apply filter_all_true. intros ep _. reflexivity.
Qed.

(** The state after "clear filters", on a catalog of three records. *)
Lemma no_active_filter_keeps_catalog_witness :
  HomeClient.filtered [r_everyone; r_designer; r_writer] "" (Some "") None
  = [r_everyone; r_designer; r_writer].
Proof.
  apply (no_active_filter_keeps_catalog [r_everyone; r_designer; r_writer]
           [] "" (Some "") None).
  reflexivity.
Defined.

(** X2.  The status line reads "showing all" exactly when the evaluation
    dropped no record: the result is then the catalog itself, and every
    catalog record meets the role, intent and free-text constraints.  The
    result never has more records than the catalog. *)
Theorem showing_all_iff_nothing_dropped
  (useCases : list UseCaseFlat) (search : string)
  (selectedRole selectedIntent : option string) :
  let result :=
    HomeClient.filtered useCases search selectedRole selectedIntent in
  (HomeClient.showingAll result useCases = true <-> result = useCases)
  /\ (HomeClient.showingAll result useCases = true
      <-> forall uc, In uc useCases ->
            role_criterion selectedRole uc
            /\ intent_criterion selectedIntent uc
            /\ text_criterion HomeClient.searchable search uc)
  /\ length result <= length useCases.
Proof.
  cbv zeta. unfold HomeClient.showingAll. rewrite Nat.eqb_eq.
  assert (H1 : length (HomeClient.filtered useCases search selectedRole
                         selectedIntent) = length useCases
               <-> HomeClient.filtered useCases search selectedRole
                     selectedIntent = useCases).
  { split; [apply filter_same_length | congruence]. }
  split; [exact H1 |]. split; [| apply filter_length_le].
  rewrite H1. split.
  - intros Heq uc Hin. rewrite <- Heq in Hin.
    apply HomeClient_filtered_In in Hin. tauto.
  - intro Hall. apply filter_all_true. intros uc Hin.
    apply HomeClient_keep_spec. now apply Hall.
Qed.

(* ================================================================== *)
(** ** Further properties: sets, the default sort and the facet lists *)
(* ================================================================== *)

Lemma set_add_NoDup (s : list string) (x : string) :
  NoDup s -> NoDup (set_add s x).
Proof.
  intro H. unfold set_add. destruct (arr_includes s x) eqn:E; [assumption |].
  apply arr_includes_false in E.
  apply NoDup_app; [assumption | repeat constructor; intros [] |].
  intros a Ha [<- | []]. contradiction.
Qed.

Lemma fold_set_add_In (l : list string) :
  forall (acc : list string) (x : string),
    In x (fold_left set_add l acc) <-> In x acc \/ In x l.
Proof.
  induction l as [| y l IH]; intros acc x; simpl; [tauto |].
  rewrite IH, set_add_In. intuition congruence.
Qed.

Lemma fold_set_add_NoDup (l : list string) :
  forall acc : list string, NoDup acc -> NoDup (fold_left set_add l acc).
Proof.
  induction l as [| y l IH]; intros acc H; simpl; [assumption |].
  apply IH. now apply set_add_NoDup.
Qed.

Lemma guarded_fold_filter {A : Type} (f : A -> string) (l : list A) :
  forall acc : list string,
    fold_left (fun acc x => if truthy (f x) then set_add acc (f x) else acc)
              l acc
    = fold_left set_add (filter truthy (map f l)) acc.
Proof.
  induction l as [| x l IH]; intro acc; simpl; [reflexivity |].
  destruct (truthy (f x)); simpl; apply IH.
Qed.

Lemma nested_fold_flat_map {A B C : Type} (g : C -> B -> C) (h : A -> list B)
  (l : list A) :
  forall acc : C,
    fold_left (fun acc x => fold_left g (h x) acc) l acc
    = fold_left g (flat_map h l) acc.
Proof.
  induction l as [| x l IH]; intro acc; simpl; [reflexivity |].
  now rewrite fold_left_app, IH.
Qed.

Lemma string_compare_le_trans (a : string) :
  forall b c : string,
    String.compare a b <> Gt -> String.compare b c <> Gt ->
    String.compare a c <> Gt.
Proof.
  induction a as [| x a IH]; intros [| y b] [| z c]; simpl;
    try congruence.
  unfold Ascii.compare.
  destruct (N.compare_spec (N_of_ascii x) (N_of_ascii y)) as [E1 | L1 | G1];
    destruct (N.compare_spec (N_of_ascii y) (N_of_ascii z))
      as [E2 | L2 | G2];
    destruct (N.compare_spec (N_of_ascii x) (N_of_ascii z))
      as [E3 | L3 | G3];
    try congruence; try lia.
  apply IH.
Qed.

Lemma default_compare_le (a b : string) :
  (default_compare a b <= 0)%Z <-> String.compare a b <> Gt.
Proof.
  unfold default_compare. destruct (String.compare a b); split; intro H;
    try lia; congruence.
Qed.

Lemma sort_insert_default_sorted (x : string) (s : list string) :
  StronglySorted (fun a b => String.compare a b <> Gt) s ->
  StronglySorted (fun a b => String.compare a b <> Gt)
                 (sort_insert default_compare x s).
Proof.
  induction s as [| y s IH]; intro Hs; simpl.
  - repeat constructor.
  - inversion Hs as [| ? ? Hs' Hy]; subst.
    destruct (Z.leb_spec (default_compare x y) 0) as [Hle | Hgt].
    + apply default_compare_le in Hle.
      constructor; [assumption |]. constructor; [assumption |].
      rewrite Forall_forall in *. intros z Hz.
      eapply string_compare_le_trans; [exact Hle | now apply Hy].
    + constructor; [now apply IH |].
      rewrite Forall_forall in *. intros z Hz.
      apply (Permutation_in _ (sort_insert_perm default_compare x s)) in Hz.
      destruct Hz as [<- | Hz]; [| now apply Hy].
      assert (Hxy : String.compare x y = Gt).
      { unfold default_compare in Hgt.
        destruct (String.compare x y); [lia | lia | reflexivity]. }
      rewrite String.compare_antisym, Hxy. discriminate.
Qed.

Lemma sort_default_sorted (l : list string) :
  StronglySorted (fun a b => String.compare a b <> Gt)
                 (sort default_compare l).
Proof.
  induction l as [| x l IH]; simpl; [constructor |].
  now apply sort_insert_default_sorted.
Qed.

Lemma sort_default_ascending (l : list string) :
  NoDup l -> ascending (sort default_compare l).
Proof.
  intro Hnd.
  assert (Hnd' : NoDup (sort default_compare l)).
  { eapply Permutation_NoDup; [apply Permutation_sym, sort_perm |].
    assumption. }
  pose proof (sort_default_sorted l) as Hs.
  unfold ascending. induction Hs as [| a s Hs IH Ha]; [constructor |].
  inversion Hnd' as [| ? ? Hnotin Hnd'']; subst.
  constructor; [now apply IH |].
  rewrite Forall_forall in *. intros b Hb. specialize (Ha b Hb).
  unfold String.ltb. destruct (String.compare a b) eqn:E;
    [| reflexivity | congruence].
  apply String.compare_eq_iff in E. subst b. contradiction.
Qed.

Lemma distinct_sorted_values (l : list string) :
  let result := sort default_compare (fold_left set_add l []) in
  (forall x, In x result <-> In x l)
  /\ NoDup result
  /\ ascending result.
Proof.
  cbv zeta.
  assert (Hnd : NoDup (fold_left set_add l [])).
  { apply fold_set_add_NoDup. constructor. }
  split; [| split].
  - intro x. rewrite sort_In, fold_set_add_In. simpl. tauto.
  - eapply Permutation_NoDup; [apply Permutation_sym, sort_perm |].
    assumption.
  - now apply sort_default_ascending.
Qed.

Lemma getAllCategories_eq (useCases : list UseCaseFlat) :
  Data.getAllCategories useCases
  = sort default_compare
      (fold_left set_add (filter truthy (map category useCases)) []).
Proof.
  unfold Data.getAllCategories. now rewrite guarded_fold_filter.
Qed.

Lemma getAllAudiences_eq (useCases : list UseCaseFlat) :
  Data.getAllAudiences useCases
  = sort default_compare
      (fold_left set_add (filter truthy (map audience useCases)) []).
Proof.
  unfold Data.getAllAudiences. now rewrite guarded_fold_filter.
Qed.

Lemma getAllTools_eq (episodes : list Episode) :
  Data.getAllTools episodes
  = sort default_compare (fold_left set_add (mentions episodes) []).
Proof.
  unfold Data.getAllTools, mentions. f_equal.
  rewrite <- nested_fold_flat_map. generalize (@nil string).
  induction episodes as [| ep l IH]; intro acc; simpl; [reflexivity |].
  rewrite <- IH. unfold CatalogClient.analysis_list.
  now destruct (analysis ep).
Qed.

Lemma truthy_values_In {A : Type} (f : A -> string) (l : list A)
  (x : string) :
  In x (filter truthy (map f l))
  <-> x <> "" /\ exists a, In a l /\ f a = x.
Proof.
  rewrite filter_In, in_map_iff, truthy_true_iff. firstorder.
Qed.

Lemma mentions_In (episodes : list Episode) (t : string) :
  In t (mentions episodes)
  <-> exists ep a, In ep episodes /\ analysis ep = Some a
                   /\ In t (tools_mentioned a).
Proof.
  unfold mentions. rewrite in_flat_map. split.
  - intros (ep & Hep & Ht). unfold CatalogClient.analysis_list in Ht.
    destruct (analysis ep) as [a |] eqn:E; [| destruct Ht].
    now exists ep, a.
  - intros (ep & a & Hep & Ha & Ht). exists ep. split; [assumption |].
    unfold CatalogClient.analysis_list. now rewrite Ha.
Qed.

(** X3.  The facet lists hold each value once, in ascending code-unit
    order: the categories (audiences) are exactly the non-empty categories
    (audiences) of the use cases, the tools exactly the tools mentioned by
    an analysed episode. *)
Theorem facet_lists_distinct_sorted_exact
  (useCases : list UseCaseFlat) (episodes : list Episode) :
  ((forall c, In c (Data.getAllCategories useCases)
              <-> c <> "" /\ exists uc, In uc useCases /\ category uc = c)
   /\ NoDup (Data.getAllCategories useCases)
   /\ ascending (Data.getAllCategories useCases))
  /\ ((forall a, In a (Data.getAllAudiences useCases)
                 <-> a <> "" /\ exists uc, In uc useCases /\ audience uc = a)
      /\ NoDup (Data.getAllAudiences useCases)
      /\ ascending (Data.getAllAudiences useCases))
  /\ ((forall t, In t (Data.getAllTools episodes)
                 <-> exists ep a, In ep episodes /\ analysis ep = Some a
                                  /\ In t (tools_mentioned a))
      /\ NoDup (Data.getAllTools episodes)
      /\ ascending (Data.getAllTools episodes)).
Proof.
  rewrite getAllCategories_eq, getAllAudiences_eq, getAllTools_eq.
  split; [| split].
  - destruct (distinct_sorted_values
                (filter truthy (map category useCases))) as (H1 & H2 & H3).
    split; [| now split]. intro c. now rewrite H1, truthy_values_In.
  - destruct (distinct_sorted_values
                (filter truthy (map audience useCases))) as (H1 & H2 & H3).
    split; [| now split]. intro a. now rewrite H1, truthy_values_In.
  - destruct (distinct_sorted_values (mentions episodes)) as (H1 & H2 & H3).
    split; [| now split]. intro t. now rewrite H1, mentions_In.
Qed.

(** X4.  The use-cases page derives its audience list inline; the list is
    the one [getAllAudiences] returns.  Its difficulty list holds exactly
    the non-empty difficulties, once each, in ascending order. *)
Theorem page_lists_agree_with_library (useCases : list UseCaseFlat) :
  UseCasesPage.allAudiences useCases = Data.getAllAudiences useCases
  /\ (forall d, In d (UseCasesPage.allDifficulties useCases)
                <-> d <> "" /\ exists uc, In uc useCases /\ difficulty uc = d)
  /\ NoDup (UseCasesPage.allDifficulties useCases)
  /\ ascending (UseCasesPage.allDifficulties useCases).
Proof.
  split; [now rewrite getAllAudiences_eq |].
  unfold UseCasesPage.allDifficulties.
  destruct (distinct_sorted_values
              (filter truthy (map difficulty useCases))) as (H1 & H2 & H3).
  split; [| now split]. intro d. now rewrite H1, truthy_values_In.
Qed.

(** X5.  Every role the picker offers (the audiences of the catalog but
    ["everyone"]) is a non-empty role which, selected alone, leaves a
    result that is not empty and holds a record of exactly that audience;
    ["everyone"] is never offered. *)
Theorem offered_roles_have_results
  (useCases : list UseCaseFlat) (role : string)
  (Hoffered : In role (HomeClient.roles (Data.getAllAudiences useCases))) :
  role <> "everyone"
  /\ role <> ""
  /\ HomeClient.filtered useCases "" (Some role) None <> []
  /\ (exists uc, In uc (HomeClient.filtered useCases "" (Some role) None)
                 /\ audience uc = role)
  /\ ~ In "everyone" (HomeClient.roles (Data.getAllAudiences useCases)).
Proof.
  unfold HomeClient.roles in *. apply filter_In in Hoffered.
  destruct Hoffered as [Hin Hne].
  apply negb_true_iff, String.eqb_neq in Hne.
  rewrite getAllAudiences_eq in Hin.
  destruct (distinct_sorted_values
              (filter truthy (map audience useCases))) as (H1 & _ & _).
  apply H1, truthy_values_In in Hin. destruct Hin as (Hrole & uc & Huc & Ha).
  assert (Hres : In uc (HomeClient.filtered useCases "" (Some role) None)).
  { apply HomeClient_filtered_In. repeat split; try assumption.
    - intros r [= <-] _. now left.
    - intros i H. discriminate.
    - intro H. now elim H. }
  split; [assumption |]. split; [assumption |]. split; [| split].
  - intro E. rewrite E in Hres. exact Hres.
  - now exists uc.
  - rewrite filter_In, String.eqb_refl. intros [_ H]. discriminate.
Qed.

(** The role [designer] of a catalog of three records. *)
Lemma offered_roles_have_results_witness :
  HomeClient.filtered [r_everyone; r_designer; r_writer] ""
    (Some "designer") None <> [].
Proof.
  apply (offered_roles_have_results [r_everyone; r_designer; r_writer]
           "designer").
  vm_compute. auto.
Defined.

(* ================================================================== *)
(** ** Further properties: tag selection *)
(* ================================================================== *)

Lemma set_delete_In (s : list string) (x y : string) :
  In y (set_delete s x) <-> In y s /\ y <> x.
Proof.
  unfold set_delete. rewrite filter_In, negb_true_iff, String.eqb_neq.
  tauto.
Qed.

Lemma filter_other_app (tag : string) (l : list string) :
  filter (fun t => negb (String.eqb t tag)) (l ++ [tag])
  = filter (fun t => negb (String.eqb t tag)) l.
Proof.
  rewrite filter_app. simpl. rewrite String.eqb_refl. simpl.
  apply app_nil_r.
Qed.

Lemma filter_idempotent {A : Type} (f : A -> bool) (l : list A) :
  filter f (filter f l) = filter f l.
Proof.
  apply filter_all_true. intros x Hx. now apply filter_In in Hx.
Qed.

(** X6.  Clicking a tag flips its membership in the selection and changes
    nothing else: every other tag stays selected or unselected, the other
    selected tags stay in their order, and a selection without repetition
    stays without repetition. *)
Theorem toggle_flips_one_tag (selected : list string) (tag : string) :
  let next := TagFilter.toggle selected tag in
  (In tag next <-> ~ In tag selected)
  /\ (forall t, t <> tag -> (In t next <-> In t selected))
  /\ filter (fun t => negb (String.eqb t tag)) next
     = filter (fun t => negb (String.eqb t tag)) selected
  /\ (NoDup selected -> NoDup next).
Proof.
  cbv zeta. unfold TagFilter.toggle.
  destruct (arr_includes selected tag) eqn:E.
  - apply arr_includes_In in E. split; [| split; [| split]].
    + rewrite filter_In, String.eqb_refl. simpl. intuition congruence.
    + intros t Hne. rewrite filter_In, negb_true_iff, String.eqb_neq. tauto.
    + apply filter_idempotent.
    + apply NoDup_filter.
  - apply arr_includes_false in E. split; [| split; [| split]].
    + rewrite in_app_iff. simpl. tauto.
    + intros t Hne. rewrite in_app_iff. simpl. intuition congruence.
    + apply filter_other_app.
    + intro Hnd. apply NoDup_app; [assumption | repeat constructor; intros []
                                  |].
      intros a Ha [<- | []]. contradiction.
Qed.

Lemma arr_includes_ext (l l' : list string) :
  (forall x, In x l <-> In x l') ->
  forall x, arr_includes l x = arr_includes l' x.
Proof.
  intros H x. destruct (arr_includes l' x) eqn:E.
  - apply arr_includes_In. apply H. now apply arr_includes_In.
  - apply arr_includes_false. rewrite H. now apply arr_includes_false.
Qed.

Lemma same_members_same_emptiness (l l' : list string) :
  (forall x, In x l <-> In x l') ->
  (0 <? length l)%nat = (0 <? length l')%nat.
Proof.
  intro H. destruct l as [| a l], l' as [| b l']; try reflexivity.
  - destruct (proj2 (H b)); now left.
  - destruct (proj1 (H a)); now left.
Qed.

Lemma UseCasesClient_filtered_ext (useCases : list UseCaseFlat)
  (search : string) (selectedRole : option string)
  (cats cats' diffs diffs' : list string) :
  (forall c, In c cats <-> In c cats') ->
  (forall d, In d diffs <-> In d diffs') ->
  UseCasesClient.filtered useCases search selectedRole cats diffs
  = UseCasesClient.filtered useCases search selectedRole cats' diffs'.
Proof.
  intros Hc Hd. unfold UseCasesClient.filtered. apply filter_ext.
  intro uc. unfold UseCasesClient.keep.
  now rewrite (same_members_same_emptiness _ _ Hc),
    (same_members_same_emptiness _ _ Hd),
    (arr_includes_ext _ _ Hc), (arr_includes_ext _ _ Hd).
Qed.

Lemma toggle_twice_members (selected : list string) (tag t : string) :
  In t (TagFilter.toggle (TagFilter.toggle selected tag) tag)
  <-> In t selected.
Proof.
  destruct (toggle_flips_one_tag selected tag) as (H1 & H2 & _).
  destruct (toggle_flips_one_tag (TagFilter.toggle selected tag) tag)
    as (H1' & H2' & _).
  cbv zeta in *. destruct (String.eqb_spec t tag) as [-> | Hne].
  - rewrite H1', H1. destruct (in_dec string_dec tag selected); tauto.
  - now rewrite H2', H2.
Qed.

(** X7.  The use-case list depends on the selected categories and
    difficulties only through which values are selected: the order of the
    clicks and a repeated value change nothing.  Clicking a category tag
    twice hence restores the result, and restores the very selection when
    the tag was not selected. *)
Theorem selection_order_is_irrelevant
  (useCases : list UseCaseFlat) (search : string)
  (selectedRole : option string)
  (cats cats' diffs : list string) (tag : string) :
  ((forall c, In c cats <-> In c cats') ->
     UseCasesClient.filtered useCases search selectedRole cats diffs
     = UseCasesClient.filtered useCases search selectedRole cats' diffs)
  /\ UseCasesClient.filtered useCases search selectedRole
       (TagFilter.toggle (TagFilter.toggle cats tag) tag) diffs
     = UseCasesClient.filtered useCases search selectedRole cats diffs
  /\ (~ In tag cats ->
        TagFilter.toggle (TagFilter.toggle cats tag) tag = cats).
Proof.
  split; [| split].
  - intro H. now apply UseCasesClient_filtered_ext.
  - apply UseCasesClient_filtered_ext; [| tauto].
    intro c. apply toggle_twice_members.
  - intro Hnot. unfold TagFilter.toggle at 2.
    rewrite (proj2 (arr_includes_false cats tag) Hnot).
    unfold TagFilter.toggle.
    assert (Hin : arr_includes (cats ++ [tag]) tag = true).
    { apply arr_includes_In, in_app_iff. right. now left. }
    rewrite Hin, filter_other_app.
    apply filter_all_true. intros t Ht.
    apply negb_true_iff, String.eqb_neq. congruence.
Qed.

(* ================================================================== *)
(** ** Further properties: expansion of the category sections *)
(* ================================================================== *)

Lemma toggleCategory_has (prev : list string) (cat c : string) :
  HomeClient.isExpanded (HomeClient.toggleCategory prev cat) c
  = if String.eqb c cat then negb (HomeClient.isExpanded prev c)
    else HomeClient.isExpanded prev c.
Proof.
  unfold HomeClient.isExpanded, HomeClient.toggleCategory. cbv zeta.
  destruct (String.eqb_spec c cat) as [-> | Hne].
  - destruct (arr_includes prev cat) eqn:E; simpl.
    + apply arr_includes_false. rewrite set_delete_In. tauto.
    + apply arr_includes_In, set_add_In. now right.
  - destruct (arr_includes prev cat) eqn:E.
    + destruct (arr_includes prev c) eqn:Ec.
      * apply arr_includes_In, set_delete_In.
        apply arr_includes_In in Ec. tauto.
      * apply arr_includes_false. rewrite set_delete_In.
        apply arr_includes_false in Ec. tauto.
    + destruct (arr_includes prev c) eqn:Ec.
      * apply arr_includes_In, set_add_In.
        apply arr_includes_In in Ec. tauto.
      * apply arr_includes_false. rewrite set_add_In.
        apply arr_includes_false in Ec. intuition congruence.
Qed.

(** X8.  Toggling the expansion of one category flips that category and
    no other; toggling it twice restores the expansion of every category;
    the set of expanded categories stays without repetition. *)
Theorem toggleCategory_flips_one_category (prev : list string)
  (cat : string) :
  HomeClient.isExpanded (HomeClient.toggleCategory prev cat) cat
  = negb (HomeClient.isExpanded prev cat)
  /\ (forall c, c <> cat ->
        HomeClient.isExpanded (HomeClient.toggleCategory prev cat) c
        = HomeClient.isExpanded prev c)
  /\ (forall c,
        HomeClient.isExpanded
          (HomeClient.toggleCategory (HomeClient.toggleCategory prev cat) cat)
          c
        = HomeClient.isExpanded prev c)
  /\ (NoDup prev -> NoDup (HomeClient.toggleCategory prev cat)).
Proof.
  split; [| split; [| split]].
  - now rewrite toggleCategory_has, String.eqb_refl.
  - intros c Hne. rewrite toggleCategory_has.
    now rewrite (proj2 (String.eqb_neq c cat) Hne).
  - intro c. rewrite !toggleCategory_has.
    destruct (String.eqb c cat); [apply negb_involutive | reflexivity].
  - intro Hnd. unfold HomeClient.toggleCategory. cbv zeta.
    destruct (arr_includes prev cat);
      [apply NoDup_filter | apply set_add_NoDup]; assumption.
Qed.

Lemma slice0_all {A : Type} (n : nat) (l : list A) :
  length l <= n -> slice0 n l = l.
Proof.
  intro H. unfold slice0. rewrite Nat.min_r by assumption.
  apply firstn_all.
Qed.

Lemma slice0_firstn {A : Type} (n : nat) (l : list A) :
  slice0 n l = firstn n l.
Proof.
  unfold slice0. destruct (Nat.le_gt_cases n (length l)) as [H | H].
  - now rewrite Nat.min_l.
  - rewrite Nat.min_r by lia. rewrite firstn_all.
    symmetry. apply firstn_all2. lia.
Qed.

Lemma slice0_hides_iff {A : Type} (n : nat) (l : list A) :
  slice0 n l <> l <-> n < length l.
Proof.
  split.
  - intro H. destruct (Nat.le_gt_cases (length l) n) as [Hle | Hgt];
      [| assumption].
    elim H. now apply slice0_all.
  - intros Hlt E. apply (f_equal (@length A)) in E.
    rewrite slice0_firstn, length_firstn in E. lia.
Qed.

(** X9.  A category section offers its "show all" toggle exactly when the
    collapsed window hides a record.  The collapsed window is a prefix of
    the group, the hidden records being the rest.  Toggling a collapsed
    category shows its whole group and leaves the window of every other
    category as it was; toggling it again collapses it. *)
Theorem show_more_offered_iff_records_hidden
  (group : list UseCaseFlat) (expanded : list string) (cat : string) :
  (HomeClient.hasMore group = true
   <-> HomeClient.visible false group <> group)
  /\ (HomeClient.hasMore group = false ->
        forall isExpanded, HomeClient.visible isExpanded group = group)
  /\ group = HomeClient.visible false group ++ skipn 6 group
  /\ (HomeClient.isExpanded expanded cat = false ->
        HomeClient.visible
          (HomeClient.isExpanded (HomeClient.toggleCategory expanded cat) cat)
          group = group
        /\ HomeClient.visible
             (HomeClient.isExpanded
                (HomeClient.toggleCategory
                   (HomeClient.toggleCategory expanded cat) cat) cat)
             group = firstn 6 group)
  /\ (forall c, c <> cat ->
        HomeClient.visible
          (HomeClient.isExpanded (HomeClient.toggleCategory expanded cat) c)
          group
        = HomeClient.visible (HomeClient.isExpanded expanded c) group).
Proof.
  assert (Hexp : HomeClient.visible true group = group).
  { unfold HomeClient.visible. now apply slice0_all. }
  assert (Hcol : HomeClient.visible false group = firstn 6 group).
  { unfold HomeClient.visible. apply slice0_firstn. }
  split; [| split; [| split; [| split]]].
  - unfold HomeClient.hasMore, HomeClient.visible.
    rewrite Nat.ltb_lt. symmetry. apply slice0_hides_iff.
  - unfold HomeClient.hasMore. rewrite Nat.ltb_ge. intros Hle [|].
    + exact Hexp.
    + unfold HomeClient.visible. now apply slice0_all.
  - rewrite Hcol. symmetry. apply firstn_skipn.
  - intro Hc. rewrite !toggleCategory_has, String.eqb_refl, Hc. simpl.
    now split.
  - intros c Hne. rewrite toggleCategory_has.
    now rewrite (proj2 (String.eqb_neq c cat) Hne).
Qed.

(** X10.  The picks section shows the first [min 6 n] picks of the
    evaluated result, in the order of the result, or all of them once
    "show all" is on; its toggle is offered exactly when the short list
    hides a pick; every record shown is a pick that meets the query. *)
Theorem picks_window
  (useCases : list UseCaseFlat) (search : string)
  (selectedRole selectedIntent : option string) (showAllPicks : bool) :
  let picks :=
    HomeClient.filteredPicks
      (HomeClient.filtered useCases search selectedRole selectedIntent) in
  HomeClient.visiblePicks false picks = firstn 6 picks
  /\ length (HomeClient.visiblePicks false picks) = Nat.min 6 (length picks)
  /\ HomeClient.visiblePicks true picks = picks
  /\ (HomeClient.hasMorePicks picks = true
      <-> HomeClient.visiblePicks false picks <> picks)
  /\ (forall uc, In uc (HomeClient.visiblePicks showAllPicks picks) ->
        is_pick uc = true
        /\ In uc (HomeClient.filtered useCases search selectedRole
                    selectedIntent)).
Proof.
  cbv zeta. unfold HomeClient.visiblePicks, HomeClient.hasMorePicks,
    HomeClient.PICKS_INITIAL.
  split; [apply slice0_firstn |]. split; [| split; [| split]].
  - rewrite slice0_firstn, length_firstn. reflexivity.
  - reflexivity.
  - rewrite Nat.ltb_lt. symmetry. apply slice0_hides_iff.
  - intros uc Hin.
    assert (Hp : In uc (HomeClient.filteredPicks
                          (HomeClient.filtered useCases search selectedRole
                             selectedIntent))).
    { destruct showAllPicks; [assumption |].
      rewrite slice0_firstn in Hin.
      rewrite <- (firstn_skipn 6). apply in_app_iff. now left. }
    unfold HomeClient.filteredPicks in Hp. apply filter_In in Hp. tauto.
Qed.

(* ================================================================== *)
(** ** Further properties: category headings *)
(* ================================================================== *)





Lemma cat_key_truthy (uc : UseCaseFlat) : HomeClient.cat_key uc <> "".
Proof.
  unfold HomeClient.cat_key. destruct (truthy (category uc)) eqn:E.
  - now apply truthy_true_iff.
  - discriminate.
Qed.


(* ================================================================== *)
(** ** Further properties: episode lookup *)
(* ================================================================== *)

Lemma read_id_not_null (e : json) :
  e <> JNull -> exists v, Data.read_id e = Normal v.
Proof.
  destruct e; simpl; eauto. congruence.
Qed.

Lemma find_by_id_step (e : json) (l : list json) (id : string) :
  e <> JNull ->
  Data.find_by_id (e :: l) id
  = match Data.read_id e with
    | Normal (Some (JString s)) =>
        if String.eqb s id then Normal (Some e) else Data.find_by_id l id
    | _ => Data.find_by_id l id
    end.
Proof.
  intro Hne. simpl. destruct (read_id_not_null e Hne) as (v & ->).
  reflexivity.
Qed.

Lemma read_id_matches (e : json) (id : string) :
  Data.read_id e = Normal (Some (JString id))
  \/ Data.read_id e <> Normal (Some (JString id)).
Proof.
  destruct (Data.read_id e) as [[[| | | s | |] |] |];
    try (right; discriminate).
  destruct (string_dec s id) as [-> | Hne]; [now left |].
  right. congruence.
Qed.

Lemma find_by_id_spec (l : list json) (id : string) :
  Forall (fun e => e <> JNull) l ->
  (Data.find_by_id l id = Normal None
   /\ forall e, In e l -> Data.read_id e <> Normal (Some (JString id)))
  \/ (exists before e after,
        l = before ++ e :: after
        /\ Data.find_by_id l id = Normal (Some e)
        /\ Data.read_id e = Normal (Some (JString id))
        /\ forall b, In b before ->
                     Data.read_id b <> Normal (Some (JString id))).
Proof.
  induction 1 as [| e l He Hl IH].
  - left. split; [reflexivity | intros e []].
  - rewrite find_by_id_step by assumption.
    destruct (read_id_matches e id) as [Hm | Hm].
    + right. exists [], e, l. rewrite Hm, String.eqb_refl.
      repeat split. intros b [].
    + assert (Hskip : match Data.read_id e with
                      | Normal (Some (JString s)) =>
                          if String.eqb s id then Normal (Some e)
                          else Data.find_by_id l id
                      | _ => Data.find_by_id l id
                      end = Data.find_by_id l id).
      { destruct (Data.read_id e) as [[[| | | s | |] |] |]; try reflexivity.
        destruct (String.eqb_spec s id) as [-> | _]; [| reflexivity].
        now elim Hm. }
      rewrite Hskip. destruct IH as [[Hnone Hall] | IH].
      * left. split; [assumption |]. intros x [<- | Hx]; auto.
      * right. destruct IH as (before & x & after & -> & Hf & Hx & Hb).
        exists (e :: before), x, after. repeat split; try assumption.
        intros b [<- | Hin]; auto.
Qed.

(** X12.  On a data file that holds an array without [null] element,
    [getEpisode] returns the first element, in file order, whose [id] is
    the string asked for, and [null] exactly when no element has that
    [id].  A [null] element met before a match, or a file that does not
    hold an array, ends the lookup on a [TypeError]. *)
Theorem getEpisode_first_match (dir : Data.data_dir) (l : list json)
  (id : string)
  (Hfile : Data.getEpisodes dir = Normal (JArray l))
  (Hobjects : Forall (fun e => e <> JNull) l) :
  (Data.getEpisode dir id = Normal None
   <-> forall e, In e l -> Data.read_id e <> Normal (Some (JString id)))
  /\ (forall e, Data.getEpisode dir id = Normal (Some e) ->
        exists before after,
          l = before ++ e :: after
          /\ Data.read_id e = Normal (Some (JString id))
          /\ forall b, In b before ->
                       Data.read_id b <> Normal (Some (JString id)))
  /\ (forall err, Data.getEpisode dir id <> Throw err)
  /\ (forall dir' rest,
        Data.getEpisodes dir' = Normal (JArray (JNull :: rest)) ->
        Data.getEpisode dir' id = Throw TypeError)
  /\ (forall dir' v,
        Data.getEpisodes dir' = Normal v -> (forall a, v <> JArray a) ->
        Data.getEpisode dir' id = Throw TypeError).
Proof.
  assert (Hget : Data.getEpisode dir id = Data.find_by_id l id).
  { unfold Data.getEpisode. now rewrite Hfile. }
  rewrite Hget.
  destruct (find_by_id_spec l id Hobjects)
    as [[Hnone Hall] | (before & x & after & Hl & Hf & Hx & Hb)].
  - rewrite Hnone. split; [tauto |]. split; [discriminate |].
    split; [discriminate |]. split.
    + intros dir' rest H. unfold Data.getEpisode. now rewrite H.
    + intros dir' v H Hv. unfold Data.getEpisode. rewrite H. simpl.
      destruct v; try reflexivity. now elim (Hv l0).
  - rewrite Hf. split; [| split; [| split; [| split]]].
    + split; [discriminate |]. intro Hall. exfalso.
      apply (Hall x); [| assumption]. rewrite Hl. apply in_elt.
    + intros e [= <-]. now exists before, after.
    + discriminate.
    + intros dir' rest H. unfold Data.getEpisode. now rewrite H.
    + intros dir' v H Hv. unfold Data.getEpisode. rewrite H. simpl.
      destruct v; try reflexivity. now elim (Hv l0).
Qed.

(** Looking up an absent episode among two. *)
Lemma getEpisode_first_match_witness :
  Data.getEpisode dir_two_episodes "zz" = Normal None
  <-> (forall e,
         In e [ JObject [ ("id", JString "e1"); ("title", JString "one") ];
                JObject [ ("id", JString "e2"); ("title", JString "two") ] ]
         -> Data.read_id e <> Normal (Some (JString "zz"))).
Proof.
  apply (getEpisode_first_match dir_two_episodes _ "zz" eq_refl).
  repeat constructor; discriminate.
Defined.

Lemma map_ids_In (l : list json) :
  forall params v,
    EpisodePage.map_ids l = Normal params -> In v params ->
    Forall (fun e => e <> JNull) l
    /\ exists e, In e l /\ Data.read_id e = Normal v.
Proof.
  induction l as [| e l IH]; intros params v; simpl.
  - intros [= <-] [].
  - destruct (Data.read_id e) as [w |] eqn:Ew; simpl; [| discriminate].
    destruct (EpisodePage.map_ids l) as [vs |] eqn:El; simpl;
      [| discriminate].
    intros [= <-] Hin.
    assert (He : e <> JNull) by (intros ->; discriminate).
    assert (Hall : Forall (fun e => e <> JNull) l).
    { destruct vs as [| v0 vs'].
      - clear -El. revert El. induction l as [| x l IHl]; [constructor |].
        simpl. destruct (Data.read_id x); simpl; [| discriminate].
        destruct (EpisodePage.map_ids l); simpl; discriminate.
      - apply (IH (v0 :: vs') v0 eq_refl). now left. }
    split; [now constructor |].
    destruct Hin as [<- | Hin].
    + exists e. split; [now left | assumption].
    + destruct (IH vs v eq_refl Hin) as (_ & x & Hx & Hr).
      exists x. split; [now right | assumption].
Qed.

(** X13.  Every page parameter that [generateStaticParams] produces with a
    string [id] resolves: [getEpisode] returns an episode of that [id],
    never [null] and never an error, so a generated page is never "not
    found". *)
Theorem static_params_resolve (dir : Data.data_dir)
  (params : list (option json)) (id : string)
  (Hgen : EpisodePage.generateStaticParams dir = Normal params)
  (Hid : In (Some (JString id)) params) :
  exists e, Data.getEpisode dir id = Normal (Some e)
            /\ Data.read_id e = Normal (Some (JString id)).
Proof.
  unfold EpisodePage.generateStaticParams in Hgen.
  destruct (Data.getEpisodes dir) as [v |] eqn:Hfile; simpl in Hgen;
    [| discriminate].
  destruct v as [| | | | l |]; try discriminate.
  destruct (map_ids_In l params _ Hgen Hid) as (Hall & x & Hx & Hr).
  unfold Data.getEpisode. rewrite Hfile. simpl.
  destruct (find_by_id_spec l id Hall)
    as [[_ Hnone] | (before & e & after & _ & Hf & He & _)].
  - elim (Hnone x Hx). exact Hr.
  - exists e. now split.
Qed.

(** The parameters of a file of two episodes. *)
Lemma static_params_resolve_witness :
  exists e, Data.getEpisode dir_two_episodes "e2" = Normal (Some e)
            /\ Data.read_id e = Normal (Some (JString "e2")).
Proof.
  apply (static_params_resolve dir_two_episodes
           [Some (JString "e1"); Some (JString "e2")] "e2").
  - reflexivity.
  - simpl. auto.
Defined.

(* ================================================================== *)
(** ** Further properties: counting and the most frequent values *)
(* ================================================================== *)

Lemma occurrences_snoc (k x : string) (l : list string) :
  occurrences k (l ++ [x])
  = occurrences k l + (if String.eqb x k then 1 else 0).
Proof.
  unfold occurrences. rewrite count_occ_app. simpl.
  destruct (string_dec x k) as [-> | Hne].
  - now rewrite String.eqb_refl.
  - now rewrite (proj2 (String.eqb_neq x k) Hne).
Qed.

Lemma occurrences_pos (k : string) (l : list string) :
  In k l <-> 1 <= occurrences k l.
Proof.
  unfold occurrences. rewrite (count_occ_In string_dec). lia.
Qed.

Lemma count_inv_nil : count_inv [] [].
Proof.
  unfold count_inv. simpl. repeat split; try constructor; tauto.
Qed.

Lemma increment_inv (ks : list string) (o : object count) (k : string) :
  count_inv ks o -> inherited k = false ->
  count_inv (ks ++ [k]) (increment o k).
Proof.
  intros (Hnd & Hval & Hcov) Hplain. unfold increment, get.
  destruct (get_own o k) as [v |] eqn:Eg.
  - pose proof (get_own_Some _ _ _ Eg) as Hin.
    destruct (Hval _ _ Hin) as [-> Hk].
    unfold count_inv. rewrite map_fst_update_own.
    split; [assumption |]. split.
    + intros k' v' Hin'. rewrite occurrences_snoc, in_app_iff.
      apply update_own_In in Hin'; [| assumption].
      destruct Hin' as [[-> ->] | [Hne Hin']].
      * rewrite String.eqb_refl. tauto.
      * destruct (Hval _ _ Hin') as [-> Hk'].
        rewrite (proj2 (String.eqb_neq k k')) by congruence.
        rewrite Nat.add_0_r. tauto.
    + intros k' Hk'. apply in_app_iff in Hk'.
      destruct Hk' as [Hk' | [<- | []]]; now apply Hcov.
  - unfold inherited in Hplain. rewrite Hplain.
    apply get_own_None in Eg.
    assert (Hnew : ~ In k ks) by (intro H; apply Eg; now apply Hcov).
    pose proof (define_own_perm k (Num 1) o) as P.
    unfold count_inv. split; [| split].
    + eapply Permutation_NoDup;
        [apply Permutation_sym, (Permutation_map fst P) |].
      simpl. now constructor.
    + intros k' v' Hin'. rewrite occurrences_snoc, in_app_iff.
      apply (Permutation_in _ P) in Hin'.
      destruct Hin' as [[= <- <-] | Hin'].
      * rewrite String.eqb_refl.
        assert (H0 : occurrences k ks = 0).
        { unfold occurrences. now apply count_occ_not_In. }
        rewrite H0. simpl. tauto.
      * destruct (Hval _ _ Hin') as [-> Hk'].
        rewrite (proj2 (String.eqb_neq k k')) by congruence.
        rewrite Nat.add_0_r. tauto.
    + intros k' Hk'. apply define_own_keys. apply in_app_iff in Hk'.
      destruct Hk' as [Hk' | [<- | []]]; [right; now apply Hcov | now left].
Qed.

Lemma fold_increment_inv (l : list string) :
  forall (ks : list string) (o : object count),
    count_inv ks o ->
    Forall (fun k => inherited k = false) l ->
    count_inv (ks ++ l) (fold_left increment l o).
Proof.
  induction l as [| k l IH]; intros ks o Hinv Hplain; simpl.
  - now rewrite app_nil_r.
  - inversion Hplain as [| ? ? Hk Hl]; subst.
    replace (ks ++ k :: l) with ((ks ++ [k]) ++ l)
      by (now rewrite <- app_assoc).
    apply IH; [now apply increment_inv | assumption].
Qed.

Lemma count_all_inv (l : list string) :
  Forall (fun k => inherited k = false) l ->
  count_inv l (fold_left increment l []).
Proof.
  intro H. apply (fold_increment_inv l [] [] count_inv_nil H).
Qed.

Lemma CatalogClient_toolCounts_eq (episodes : list Episode) :
  CatalogClient.toolCounts episodes
  = fold_left increment (mentions episodes) [].
Proof.
  unfold CatalogClient.toolCounts, mentions.
  apply nested_fold_flat_map.
Qed.

Lemma Stats_toolCounts_eq (episodes : list Episode) :
  Stats.toolCounts episodes = CatalogClient.toolCounts episodes.
Proof.
  unfold Stats.toolCounts, CatalogClient.toolCounts.
  generalize (@nil (string * count)).
  induction episodes as [| ep l IH]; intro acc; simpl; [reflexivity |].
  rewrite IH. unfold CatalogClient.analysis_list.
  now destruct (analysis ep).
Qed.

Lemma Stats_catCounts_eq (useCases : list UseCaseFlat) :
  Stats.catCounts useCases
  = fold_left increment (filter truthy (map category useCases)) [].
Proof.
  unfold Stats.catCounts. generalize (@nil (string * count)).
  induction useCases as [| uc l IH]; intro acc; simpl; [reflexivity |].
  destruct (truthy (category uc)); simpl; apply IH.
Qed.

Lemma StronglySorted_app_cross {A : Type} (R : A -> A -> Prop)
  (l1 l2 : list A) :
  StronglySorted R (l1 ++ l2) ->
  forall a b, In a l1 -> In b l2 -> R a b.
Proof.
  induction l1 as [| x l1 IH]; simpl; intros Hs a b Ha Hb; [destruct Ha |].
  inversion Hs as [| ? ? Hs' Hall]; subst.
  destruct Ha as [<- | Ha]; [| now apply IH].
  rewrite Forall_forall in Hall. apply Hall, in_app_iff. now right.
Qed.

Lemma StronglySorted_prefix {A : Type} (R : A -> A -> Prop)
  (l1 l2 : list A) :
  StronglySorted R (l1 ++ l2) -> StronglySorted R l1.
Proof.
  induction l1 as [| x l1 IH]; simpl; intro Hs; [constructor |].
  inversion Hs as [| ? ? Hs' Hall]; subst.
  constructor; [now apply IH |].
  rewrite Forall_forall in *. intros y Hy. apply Hall, in_app_iff.
  now left.
Qed.

Lemma StronglySorted_trivial {A : Type} (l : list A) :
  StronglySorted (fun _ _ => True) l.
Proof.
  induction l; constructor; [assumption |].
  apply Forall_forall. intros; exact I.
Qed.

(** The entries of a well-formed count object, by descending count, and
    the [n] first of them. *)
Lemma entries_by_count_top (ks : list string) (o : object count) (n : nat) :
  count_inv ks o ->
  exists sorted,
    entries_by_count o = Defined sorted
    /\ Permutation sorted o
    /\ NoDup (map fst (slice0 n sorted))
    /\ length (slice0 n sorted) = Nat.min n (length o)
    /\ (forall k v, In (k, v) (slice0 n sorted) ->
          v = Num (occurrences k ks) /\ In k ks)
    /\ (forall k v u, In (k, v) (slice0 n sorted) -> In u ks ->
          ~ In u (map fst (slice0 n sorted)) ->
          occurrences u ks <= occurrences k ks)
    /\ StronglySorted
         (fun a b => occurrences (fst b) ks <= occurrences (fst a) ks)
         (slice0 n sorted).
Proof.
  intros (Hnd & Hval & Hcov).
  set (size := fun kv : string * count => number_of (snd kv)).
  set (sorted := sort (by_size size) o).
  assert (Hnum : forallb (fun kv => is_number (snd kv)) (entries o) = true).
  { apply forallb_forall. intros [k v] Hin.
    destruct (Hval _ _ Hin) as [-> _]. reflexivity. }
  pose proof (sort_perm (by_size size) o) as P. fold sorted in P.
  assert (Hval' : forall k v, In (k, v) sorted ->
                              v = Num (occurrences k ks) /\ In k ks).
  { intros k v Hin. apply Hval. now apply (Permutation_in _ P). }
  assert (Hsorted : StronglySorted
                      (fun a b => occurrences (fst b) ks
                                  <= occurrences (fst a) ks) sorted).
  { eapply StronglySorted_impl_In;
      [| apply (sort_stable size (fun _ _ => True)),
           StronglySorted_trivial].
    intros [ka va] [kb vb] Ha Hb H. fold sorted in Ha, Hb.
    destruct (Hval' _ _ Ha) as [-> _]. destruct (Hval' _ _ Hb) as [-> _].
    unfold size_then_before, size in H. simpl in *. lia. }
  assert (Hsplit : sorted = slice0 n sorted ++ skipn n sorted).
  { rewrite slice0_firstn. symmetry. apply firstn_skipn. }
  assert (Hnd' : NoDup (map fst sorted)).
  { eapply Permutation_NoDup;
      [apply Permutation_sym, (Permutation_map fst P) | assumption]. }
  exists sorted. split.
  { unfold entries_by_count. now rewrite Hnum. }
  split; [exact P |]. split; [| split; [| split; [| split]]].
  - rewrite Hsplit, map_app in Hnd'. eapply NoDup_app_remove_r.
    eassumption.
  - unfold slice0. rewrite length_firstn, (Permutation_length P). lia.
  - intros k v Hin. apply Hval'. rewrite Hsplit. apply in_app_iff.
    now left.
  - intros k v u Hin Hu Hnot.
    apply Hcov in Hu.
    apply (Permutation_in _ (Permutation_sym (Permutation_map fst P)))
      in Hu.
    apply in_map_iff in Hu. destruct Hu as ([u' w] & Hfst & Hin').
    simpl in Hfst. subst u'.
    rewrite Hsplit in Hin'. apply in_app_iff in Hin'.
    destruct Hin' as [Hin' | Hin'].
    + elim Hnot. change u with (fst (u, w)). now apply in_map.
    + rewrite Hsplit in Hsorted.
      apply (StronglySorted_app_cross _ _ _ Hsorted (k, v) (u, w));
        assumption.
  - rewrite Hsplit in Hsorted.
    eapply StronglySorted_prefix. eassumption.
Qed.

Lemma same_members_same_length (l l' : list string) :
  NoDup l -> NoDup l' -> (forall x, In x l <-> In x l') ->
  length l = length l'.
Proof.
  intros H H' Hiff. apply Permutation_length.
  now apply NoDup_Permutation.
Qed.

Lemma count_keys_length (ks : list string) (o : object count) :
  count_inv ks o ->
  length o = length (sort default_compare (fold_left set_add ks [])).
Proof.
  intros (Hnd & Hval & Hcov).
  destruct (distinct_sorted_values ks) as (Hmem & Hnd' & _).
  cbv zeta in *. rewrite <- (length_map fst o).
  apply same_members_same_length; try assumption.
  intro x. rewrite Hmem. split; [| apply Hcov].
  intro Hx. apply in_map_iff in Hx. destruct Hx as ([k v] & <- & Hin).
  now apply (Hval k v).
Qed.

(** X14.  When no tool is named as a property inherited from
    [Object.prototype], the tool filter offers the 15 most mentioned
    tools, or all the tools if there are fewer: distinct tools in
    descending order of their number of mentions, each mentioned at least
    as often as any tool left out; and each offered tool, selected alone,
    leaves at least one episode. *)
Theorem topTools_most_mentioned (episodes : list Episode)
  (Hplain : Forall (fun t => inherited t = false) (mentions episodes)) :
  exists top,
    CatalogClient.topTools episodes = Defined top
    /\ NoDup top
    /\ length top = Nat.min 15 (length (Data.getAllTools episodes))
    /\ (forall t, In t top -> In t (Data.getAllTools episodes))
    /\ (forall t u, In t top -> In u (Data.getAllTools episodes) ->
          ~ In u top ->
          occurrences u (mentions episodes)
          <= occurrences t (mentions episodes))
    /\ StronglySorted
         (fun t u => occurrences u (mentions episodes)
                     <= occurrences t (mentions episodes)) top
    /\ (forall t, In t top ->
          CatalogClient.filtered episodes "" None [t] [] <> []).
Proof.
  pose proof (count_all_inv _ Hplain) as Hinv.
  rewrite <- CatalogClient_toolCounts_eq in Hinv.
  destruct (entries_by_count_top _ _ 15 Hinv)
    as (sorted & Hdef & P & Hnd & Hlen & Hval & Htop & Hs).
  assert (Hmem : forall t, In t (Data.getAllTools episodes)
                           <-> In t (mentions episodes)).
  { intro t. rewrite getAllTools_eq.
    apply (distinct_sorted_values (mentions episodes)). }
  assert (Hin : forall t, In t (map fst (slice0 15 sorted)) ->
                          In t (mentions episodes)).
  { intros t Ht. apply in_map_iff in Ht. destruct Ht as ([k v] & <- & Hkv).
    now apply (Hval k v). }
  exists (map fst (slice0 15 sorted)).
  split; [unfold CatalogClient.topTools; now rewrite Hdef |].
  split; [exact Hnd |]. split; [| split; [| split; [| split]]].
  - rewrite length_map, Hlen, getAllTools_eq.
    now rewrite (count_keys_length _ _ Hinv).
  - intros t Ht. apply Hmem. now apply Hin.
  - intros t u Ht Hu Hnot. apply in_map_iff in Ht.
    destruct Ht as ([k v] & <- & Hkv). simpl.
    apply (Htop k v u); [assumption | now apply Hmem | assumption].
  - now apply StronglySorted_map.
  - intros t Ht E. apply Hin, mentions_In in Ht.
    destruct Ht as (ep & a & Hep & Ha & Hta).
    assert (Hres : In ep (CatalogClient.filtered episodes "" None [t] [])).
    { apply CatalogClient_filtered_In. split; [assumption |].
      split; [intro H; now elim H |].
      split; [intros r H; discriminate |]. split.
      - intros _. exists t. split; [now left |].
        unfold CatalogClient.analysis_list. now rewrite Ha.
      - intro H. now elim H. }
    rewrite E in Hres. exact Hres.
Qed.

(** Two episodes and three tools. *)
Lemma topTools_most_mentioned_witness :
  exists top,
    CatalogClient.topTools
      [ep_with_tools "e1" ["cursor"; "claude"]; ep_with_tools "e2" ["claude"]]
    = Defined top
    /\ NoDup top.
Proof.
  destruct (topTools_most_mentioned
              [ep_with_tools "e1" ["cursor"; "claude"];
               ep_with_tools "e2" ["claude"]])
    as (top & H1 & H2 & _).
  - repeat constructor.
  - now exists top.
Defined.

Lemma occurrences_truthy (c : string) (l : list string) :
  c <> "" -> occurrences c (filter truthy l) = occurrences c l.
Proof.
  intro Hc. unfold occurrences. induction l as [| x l IH]; simpl;
    [reflexivity |].
  destruct (truthy x) eqn:Ex; simpl.
  - destruct (string_dec x c); now rewrite IH.
  - apply truthy_false_iff in Ex. subst x.
    destruct (string_dec "" c); [congruence | assumption].
Qed.

(** X15.  The statistics panel counts as the tool filter does: its tool
    counts are the same object, and its eight top tools are the first
    eight of the filter's.  When no tool (category) is named as a property
    inherited from [Object.prototype]: the "Tools" number is the number of
    distinct tools, each top tool carries its exact number of mentions, and
    each top category is a non-empty category carrying the exact number of
    use cases of that category. *)
Theorem stats_panel_counts
  (episodes : list Episode) (useCases : list UseCaseFlat) :
  Stats.toolCounts episodes = CatalogClient.toolCounts episodes
  /\ outcome_map (map fst) (Stats.topTools episodes)
     = outcome_map (firstn 8) (CatalogClient.topTools episodes)
  /\ (Forall (fun t => inherited t = false) (mentions episodes) ->
        Stats.toolsShown episodes = length (Data.getAllTools episodes)
        /\ exists top,
             Stats.topTools episodes = Defined top
             /\ length top
                = Nat.min 8 (length (Data.getAllTools episodes))
             /\ forall t c, In (t, c) top ->
                  c = Num (occurrences t (mentions episodes))
                  /\ 1 <= occurrences t (mentions episodes))
  /\ (Forall (fun c => inherited c = false) (map category useCases) ->
        exists top,
          Stats.topCategories useCases = Defined top
          /\ length top
             = Nat.min 6 (length (Data.getAllCategories useCases))
          /\ forall c n, In (c, n) top ->
               c <> ""
               /\ n = Num (occurrences c (map category useCases))
               /\ In c (Data.getAllCategories useCases)).
Proof.
  split; [apply Stats_toolCounts_eq |]. split; [| split].
  - unfold Stats.topTools, CatalogClient.topTools.
    rewrite Stats_toolCounts_eq.
    destruct (entries_by_count (CatalogClient.toolCounts episodes))
      as [sorted |]; [| reflexivity].
    cbn [outcome_map]. f_equal.
    rewrite !slice0_firstn, firstn_map, firstn_firstn.
    reflexivity.
  - intro Hplain. pose proof (count_all_inv _ Hplain) as Hinv.
    rewrite <- CatalogClient_toolCounts_eq, <- Stats_toolCounts_eq in Hinv.
    split.
    + unfold Stats.toolsShown.
      rewrite length_map, getAllTools_eq.
      apply (count_keys_length _ _ Hinv).
    + destruct (entries_by_count_top _ _ 8 Hinv)
        as (sorted & Hdef & _ & _ & Hlen & Hval & _).
      exists (slice0 8 sorted).
      split; [unfold Stats.topTools; now rewrite Hdef |]. split.
      * rewrite Hlen, getAllTools_eq.
        now rewrite (count_keys_length _ _ Hinv).
      * intros t c Hin. destruct (Hval t c Hin) as [-> Ht].
        split; [reflexivity | now apply occurrences_pos].
  - intro Hplain.
    assert (Hplain' : Forall (fun c => inherited c = false)
                        (filter truthy (map category useCases))).
    { rewrite Forall_forall in *. intros c Hc. apply filter_In in Hc.
      now apply Hplain. }
    pose proof (count_all_inv _ Hplain') as Hinv.
    rewrite <- Stats_catCounts_eq in Hinv.
    destruct (entries_by_count_top _ _ 6 Hinv)
      as (sorted & Hdef & _ & _ & Hlen & Hval & _).
    exists (slice0 6 sorted).
    split; [unfold Stats.topCategories; now rewrite Hdef |]. split.
    + rewrite Hlen, getAllCategories_eq.
      now rewrite (count_keys_length _ _ Hinv).
    + intros c n Hin. destruct (Hval c n Hin) as [-> Hc].
      assert (Hne : c <> "").
      { apply filter_In in Hc. now apply truthy_true_iff. }
      split; [assumption |]. split.
      * now rewrite occurrences_truthy.
      * rewrite getAllCategories_eq.
        now apply (distinct_sorted_values
                     (filter truthy (map category useCases))).
Qed.

(* ================================================================== *)
(** ** Further properties: the number of categories *)
(* ================================================================== *)

Lemma filter_split_length {A : Type} (f : A -> bool) (l : list A) :
  length l = length (filter f l) + length (filter (fun x => negb (f x)) l).
Proof.
  induction l as [| x l IH]; simpl; [reflexivity |].
  destruct (f x); simpl; lia.
Qed.

Lemma NoDup_constant (a : string) (l : list string) :
  NoDup l -> (forall x, In x l -> x = a) ->
  length l = if in_dec string_dec a l then 1 else 0.
Proof.
  intros Hnd Hall. destruct l as [| x [| y l]].
  - reflexivity.
  - rewrite (Hall x) by now left.
    destruct (in_dec string_dec a [a]) as [_ | H]; [reflexivity |].
    elim H. now left.
  - exfalso. inversion Hnd as [| ? ? Hnotin _]; subst.
    apply Hnotin. left.
    rewrite (Hall x), (Hall y); simpl; auto.
Qed.

Lemma plain_or_inherited (l : list string) :
  Forall (fun k => inherited k = false) l
  \/ Exists (fun k => inherited k = true) l.
Proof.
  induction l as [| k l [IH | IH]].
  - left. constructor.
  - destruct (inherited k) eqn:E.
    + right. now constructor.
    + left. now constructor.
  - right. now constructor 2.
Qed.

(** X16.  The "Categories" number counts the distinct category values of
    the catalog, the empty one included: it is the length of the category
    list plus one when some use case has no category.  Whatever the query,
    the status line never reports more categories than this number. *)
Theorem category_numbers
  (useCases : list UseCaseFlat) (search : string)
  (selectedRole selectedIntent : option string)
  (groups : list (string * list UseCaseFlat)) :
  HomeClient.totalCategories useCases
  = length (Data.getAllCategories useCases)
    + (if existsb (fun uc => negb (truthy (category uc))) useCases
       then 1 else 0)
  /\ (HomeClient.grouped
        (HomeClient.filtered useCases search selectedRole selectedIntent)
      = Normal groups ->
      length groups <= HomeClient.totalCategories useCases).
Proof.
  set (D := fold_left set_add (map category useCases) []).
  assert (HD : (forall x, In x D <-> In x (map category useCases))
               /\ NoDup D).
  { split.
    - intro x. unfold D. rewrite fold_set_add_In. simpl. tauto.
    - apply fold_set_add_NoDup. constructor. }
  destruct HD as [HDmem HDnd].
  change (HomeClient.totalCategories useCases) with (length D).
  split.
  - rewrite (filter_split_length truthy D). f_equal.
    + rewrite getAllCategories_eq.
      destruct (distinct_sorted_values
                  (filter truthy (map category useCases)))
        as (Hmem & Hnd & _).
      apply same_members_same_length;
        [now apply NoDup_filter | assumption |].
      intro x. rewrite Hmem, !filter_In, HDmem. tauto.
    + rewrite (NoDup_constant "");
        [| now apply NoDup_filter
         | intros x Hx; apply filter_In in Hx;
           now apply truthy_false_iff, negb_true_iff].
      destruct (in_dec string_dec ""
                  (filter (fun x => negb (truthy x)) D)) as [Hin | Hnot];
        destruct (existsb (fun uc => negb (truthy (category uc))) useCases)
          eqn:Ex; try reflexivity; exfalso.
      * apply filter_In in Hin. destruct Hin as [Hin _].
        apply HDmem, in_map_iff in Hin. destruct Hin as (uc & Hc & Huc).
        assert (existsb (fun uc => negb (truthy (category uc))) useCases
                = true).
        { apply existsb_exists. exists uc. split; [assumption |].
          now rewrite Hc. }
        congruence.
      * apply existsb_exists in Ex. destruct Ex as (uc & Huc & Hc).
        apply Hnot, filter_In. split.
        -- apply HDmem. apply negb_true_iff, truthy_false_iff in Hc.
           rewrite <- Hc. now apply in_map.
        -- apply negb_true_iff, truthy_false_iff in Hc.
           reflexivity.
  - intro Hg.
    set (result := HomeClient.filtered useCases search selectedRole
                     selectedIntent) in *.
    destruct (plain_or_inherited (map HomeClient.cat_key result))
      as [Hplain | Hinh].
    + apply Forall_map in Hplain.
      destruct (grouped_members result Hplain)
        as (groups' & Hg' & Hnd & Hmem & _).
      rewrite Hg in Hg'. injection Hg' as <-.
      rewrite <- (length_map fst groups),
        <- (length_map (fun c => if truthy c then c else "other") D).
      apply NoDup_incl_length; [assumption |].
      intros k Hk. apply in_map_iff in Hk.
      destruct Hk as ([k' ms] & <- & Hin). simpl.
      destruct (Hmem _ _ Hin) as [_ Hkey].
      apply in_map_iff in Hkey. destruct Hkey as (uc & <- & Huc).
      apply in_map_iff. exists (category uc). split; [reflexivity |].
      apply HDmem, in_map. unfold result, HomeClient.filtered in Huc.
      apply filter_In in Huc. tauto.
    + apply Exists_map in Hinh.
      rewrite (grouped_throws result Hinh) in Hg. discriminate.
Qed.

(** The records without filter: two categories, two groups. *)
Lemma category_numbers_witness :
  length [("coding", [r_everyone; r_designer]); ("writing", [r_writer])]
  <= HomeClient.totalCategories [r_everyone; r_designer; r_writer].
Proof.
  apply (category_numbers [r_everyone; r_designer; r_writer] "" None None).
  reflexivity.
Defined.

(* ================================================================== *)
(** ** Further properties: refining a query *)
(* ================================================================== *)








(** X18.  Every category tag the use-case list offers, selected alone,
    leaves exactly the use cases of that category, and at least one. *)
Theorem offered_categories_have_results
  (useCases : list UseCaseFlat) (c : string)
  (Hoffered : In c (Data.getAllCategories useCases)) :
  UseCasesClient.filtered useCases "" None [c] [] <> []
  /\ UseCasesClient.filtered useCases "" None [c] []
     = filter (fun uc => String.eqb (category uc) c) useCases
  /\ (forall uc, In uc (UseCasesClient.filtered useCases "" None [c] [])
                 <-> In uc useCases /\ category uc = c).
Proof.
  assert (Hmem : forall uc,
            In uc (UseCasesClient.filtered useCases "" None [c] [])
            <-> In uc useCases /\ category uc = c).
  { intro uc. rewrite UseCasesClient_filtered_In. split.
    - intros (Hin & _ & Hc & _). split; [assumption |].
      destruct (Hc ltac:(discriminate)) as (v & [<- | []] & Hv).
      now symmetry.
    - intros (Hin & Hc). repeat split; try assumption.
      + intro H. now elim H.
      + intros _. exists c. split; [now left | now symmetry].
      + intro H. now elim H.
      + intros r H. discriminate. }
  rewrite getAllCategories_eq in Hoffered.
  apply (distinct_sorted_values (filter truthy (map category useCases)))
    in Hoffered.
  apply truthy_values_In in Hoffered. destruct Hoffered as (_ & uc & Huc & Hc).
  split; [| split; [| exact Hmem]].
  - intro E. assert (H : In uc (UseCasesClient.filtered useCases "" None
                                  [c] [])) by (apply Hmem; tauto).
    rewrite E in H. exact H.
  - unfold UseCasesClient.filtered. apply filter_ext. intro x.
    unfold UseCasesClient.keep. simpl.
    destruct (String.eqb (category x) c); reflexivity.
Qed.

(** The tag [writing] of a catalog of three records. *)
Lemma offered_categories_have_results_witness :
  UseCasesClient.filtered [r_everyone; r_designer; r_writer] "" None
    ["writing"] [] <> [].
Proof.
  apply (offered_categories_have_results [r_everyone; r_designer; r_writer]
           "writing").
  vm_compute. auto.
Defined.
